(** * FlatTree: a flat tree stored in two parallel vectors

    Shallow embedding of [FlatTree.h].  A tree is the pair of vectors
    [m_data] (node values) and [m_parent_index] (parent index per node).
    [std::vector] is a [list]; [std::size_t] indices are [nat] (the only
    subtraction, [size() - 1], is discussed at [remove_node]).

    C++ behaviour that is not a plain return value is made explicit in the
    [outcome] type: a failed [assert] (assertions are compiled in), an
    access outside a vector (undefined behaviour), and an exhausted
    recursion budget for the one recursive routine, [getAllDescendants]. *)

From stdpp Require Import base list strings sorting.

(** ** Outcomes of a call *)

Inductive outcome (A : Type) : Type :=
  | Done (a : A)            (* the call returned [a] *)
  | Abort (msg : string)    (* [assert(cond && msg)] failed *)
  | Undefined               (* access outside a vector *)
  | Timeout.                (* recursion budget exhausted *)
Arguments Done {A} a.
Arguments Abort {A} msg.
Arguments Undefined {A}.
Arguments Timeout {A}.

#[global] Instance outcome_ret : MRet outcome := λ A a, Done a.
#[global] Instance outcome_bind : MBind outcome := λ A B f m,
  match m with
  | Done a => f a
  | Abort msg => Abort msg
  | Undefined => Undefined
  | Timeout => Timeout
  end.

Definition assert (cond : bool) (msg : string) : outcome unit :=
  if cond then Done tt else Abort msg.

(** A [for] loop over [l] whose body may fail, threading the loop state. *)
Fixpoint for_each {A S : Type} (body : A → S → outcome S) (l : list A) (s : S)
  : outcome S :=
  match l with
  | [] => Done s
  | a :: l' => s' ← body a s; for_each body l' s'
  end.

(* the loop of [getAllDescendantsNotFromRoot] over the collected indices,
   named for the statements about it *)
Definition collect_loop {R : Type} (self : nat → list nat → outcome (R * list nat))
    (l : list nat) (acc : list nat) : outcome (list nat) :=
  for_each (λ i acc, r ← self i acc; Done r.2) l acc.

(** ** std::vector primitives *)

(* v[i], reading *)
Definition vec_at {A : Type} (v : list A) (i : nat) : outcome A :=
  match v !! i with
  | Some x => Done x
  | None => Undefined
  end.

(* v[i] = x *)
Definition vec_set {A : Type} (v : list A) (i : nat) (x : A) : outcome (list A) :=
  if i <? length v then Done (<[i := x]> v) else Undefined.

(* v.pop_back() *)
Definition pop_back {A : Type} (v : list A) : outcome (list A) :=
  match v with
  | [] => Undefined
  | _ => Done (take (length v - 1) v)
  end.

(* v.emplace_back(x) *)
Definition emplace_back {A : Type} (v : list A) (x : A) : list A := v ++ [x].

(* v.resize(n): truncate, or pad with value-initialised elements *)
Definition vec_resize {A : Type} (dflt : A) (v : list A) (n : nat) : list A :=
  take n v ++ replicate (n - length v) dflt.

(* std::find(first, last, x) as the position found; [length v] is [end()] *)
Fixpoint std_find (v : list nat) (x : nat) : nat :=
  match v with
  | [] => 0
  | y :: v' => if y =? x then 0 else S (std_find v' x)
  end.

(* std::count(first, last, x) *)
Fixpoint std_count (v : list nat) (x : nat) : nat :=
  match v with
  | [] => 0
  | y :: v' => (if y =? x then 1 else 0) + std_count v' x
  end.

(* std::unique on a sorted vector: one element of every run of equal
   elements is kept *)
Fixpoint std_unique (v : list nat) : list nat :=
  match v with
  | [] => []
  | x :: v' =>
      match v' with
      | [] => [x]
      | y :: _ => if x =? y then std_unique v' else x :: std_unique v'
      end
  end.

(* std::sort on a vector of indices *)
Definition std_sort (v : list nat) : list nat := merge_sort (≤) v.

Definition newline : string := String (Ascii.ascii_of_nat 10) EmptyString.

(** ** The class *)

Record FlatTree (T : Type) : Type := mkFlatTree {
  m_data : list T;
  m_parent_index : list nat
}.
Arguments mkFlatTree {T} m_data m_parent_index.
Arguments m_data {T} _.
Arguments m_parent_index {T} _.

Definition size_for_parallelization : nat := 2000.

Definition msg_sizes : string :=
  " FlatTree input collections are not of equal size."%string.
Definition msg_root : string :=
  " root node must be the first node in tree."%string.
Definition msg_index : string := " node index is invalid"%string.
Definition msg_structure : string := " tree structure is invalid"%string.
Definition msg_remove_node : string :=
  " something went wrong when trying to remove a node from tree."%string.
Definition msg_insert : string := " failed to insert a node to tree."%string.
Definition msg_remove : string := " failed to remove a node from tree."%string.
Definition msg_remove_many : string := " failed to remove nodes from tree."%string.
(* the assertion of [operator[]] carries no text *)
Definition msg_none : string := EmptyString.

Section FlatTree.
Context {T : Type} `{!Inhabited T}.
Implicit Types (t : FlatTree T) (out : list nat).

(** *** Constructors *)

(* FlatTree(const T&) *)
Definition FlatTree_root (xi_data : T) : FlatTree T :=
  mkFlatTree (emplace_back [] xi_data) (emplace_back [] 0).

(* FlatTree(const C1&, const C2&), C1 and C2 not vectors *)
Definition FlatTree_from_collections (xi_data : list T)
    (xi_parent_index : list nat) : outcome (FlatTree T) :=
  let len := length xi_data in
  _ ← assert (len =? length xi_parent_index) msg_sizes;
  let t := mkFlatTree xi_data xi_parent_index in
  r ← vec_at (m_parent_index t) 0;
  _ ← assert (r =? 0) msg_root;
  Done t.

(* FlatTree(const std::vector<T>&, const std::vector<std::size_t>&) *)
Definition FlatTree_from_vectors (xi_data : list T)
    (xi_parent_index : list nat) : outcome (FlatTree T) :=
  let t := mkFlatTree xi_data xi_parent_index in
  _ ← assert (length (m_data t) =? length (m_parent_index t)) msg_sizes;
  Done t.

(** *** Capacity *)

Definition size t : nat := length (m_data t).
Definition empty t : bool := size t =? 1.

(** *** Internal: validity *)

(* sizes match && m_parent_index[0] == 0; the second operand is only
   evaluated when the first holds *)
Definition isValid t : outcome bool :=
  if length (m_data t) =? length (m_parent_index t)
  then r ← vec_at (m_parent_index t) 0; Done (r =? 0)
  else Done false.

(** *** Modifiers *)

Definition clear t : outcome (FlatTree T) :=
  root ← vec_at (m_data t) 0;
  Done (mkFlatTree (emplace_back [] root) (emplace_back [] 0)).

Definition resize (xi_count : nat) t : FlatTree T :=
  mkFlatTree (vec_resize inhabitant (m_data t) xi_count)
             (vec_resize 0 (m_parent_index t) xi_count).

(** *** Scans.  The execution policy does not change what [std::find]
    and [std::count] return, so both variants are the same function. *)

Definition doesIndexExistSequential t (xi_index : nat) : bool :=
  if std_find (m_parent_index t) xi_index =? length (m_parent_index t)
  then false else true.

Definition doesIndexExistParallel t (xi_index : nat) : bool :=
  if std_find (m_parent_index t) xi_index =? length (m_parent_index t)
  then false else true.

Definition doesIndexExist t (xi_index : nat) : bool :=
  let len := size t in
  if len <? size_for_parallelization
  then doesIndexExistSequential t xi_index
  else doesIndexExistParallel t xi_index.

Definition getNumOfDescendantsSequential t (xi_parent_index : nat) : nat :=
  std_count (m_parent_index t) xi_parent_index.

Definition getNumOfDescendantsParallel t (xi_parent_index : nat) : nat :=
  std_count (m_parent_index t) xi_parent_index.

Definition getNumOfDescendants t (xi_parent_index : nat) : nat :=
  let len := size t in
  if len <? size_for_parallelization
  then getNumOfDescendantsSequential t xi_parent_index
  else getNumOfDescendantsParallel t xi_parent_index.

Definition isLeaf t (xi_index : nat) : outcome bool :=
  _ ← assert (xi_index <? length (m_parent_index t)) msg_index;
  Done (getNumOfDescendants t xi_index =? 0).

Definition getParentIndex t (xi_index : nat) : outcome nat :=
  v ← isValid t;
  _ ← assert v msg_structure;
  _ ← assert (xi_index <? length (m_parent_index t)) msg_index;
  if 0 <? xi_index then vec_at (m_parent_index t) xi_index else Done 0.

(** *** First-generation descendants *)

(* body of the scan loop of [getDescendants]: the state is
   ([xo_output], [xo_descendants]) *)
Definition getDescendants_body t (xi_parent_index : nat) (i : nat)
    (st : bool * list nat) : outcome (bool * list nat) :=
  pi ← vec_at (m_parent_index t) i;
  if negb (pi =? xi_parent_index) then Done st      (* continue *)
  else Done (true, emplace_back st.2 i).

Definition getDescendants t (xi_parent_index : nat) out
    : outcome (bool * list nat) :=
  v ← isValid t;
  if negb v then Done (false, out) else
  if xi_parent_index =? 0 then Done (false, out) else
  for_each (getDescendants_body t xi_parent_index)
           (seq 1 (size t - 1)) (false, out).

(** *** All descendants *)

Definition getAllDescendantsFromRoot t out : outcome (bool * list nat) :=
  for_each (λ i st, Done (true, emplace_back st.2 i))
           (seq 1 (size t - 1)) (false, out).

(* [getAllDescendantsNotFromRoot] calls back into [getAllDescendants],
   given here as [self].  The range-for evaluates [begin()] and [end()]
   once, so it visits the elements the vector holds when the loop starts;
   what the nested calls append is not visited by this loop.  (The callers
   reserve [size()] slots, and a run that returns appends fewer.) *)
Definition getAllDescendantsNotFromRoot
    (self : nat → list nat → outcome (bool * list nat))
    t (xi_parent_index : nat) out : outcome (bool * list nat) :=
  '(xo_output, out1) ← getDescendants t xi_parent_index out;
  if negb xo_output then Done (false, out1) else
  out2 ← for_each (λ i acc, r ← self i acc; Done r.2) out1 out1;
  Done (true, out2).

Fixpoint getAllDescendants (fuel : nat) t (xi_parent_index : nat) out
    : outcome (bool * list nat) :=
  match fuel with
  | 0 => Timeout
  | S fuel' =>
      if negb (xi_parent_index =? 0)
      then getAllDescendantsNotFromRoot (getAllDescendants fuel' t)
             t xi_parent_index out
      else getAllDescendantsFromRoot t out
  end.

(** *** Insertion *)

Definition insert (xi_parent_id : nat) (xi_node : T) t
    : outcome (bool * FlatTree T) :=
  if length (m_parent_index t) <=? xi_parent_id then Done (false, t) else
  v ← isValid t;
  if negb v then Done (false, t) else
  Done (true, mkFlatTree (emplace_back (m_data t) xi_node)
                         (emplace_back (m_parent_index t) xi_parent_id)).

Definition insert_many (xi_parent_id : nat) (xi_nodes : list T) t
    : outcome (bool * FlatTree T) :=
  if length (m_parent_index t) <=? xi_parent_id then Done (false, t) else
  v ← isValid t;
  if negb v then Done (false, t) else
  Done (true, foldl (λ t' node,
                mkFlatTree (emplace_back (m_data t') node)
                           (emplace_back (m_parent_index t') xi_parent_id))
              t xi_nodes).

(** *** Removal *)

(* Swap with the last slot and pop.  [v.size() - 1] wraps to the largest
   [size_t] on an empty vector, an index outside it; on [nat] the
   subtraction gives 0, equally outside [[]], so both read [Undefined]. *)
Definition remove_node (xi_index : nat) t : outcome (FlatTree T) :=
  if xi_index =? 0 then Done t else
  last_value ← vec_at (m_data t) (length (m_data t) - 1);
  d1 ← vec_set (m_data t) xi_index last_value;
  d2 ← pop_back d1;
  last_parent ← vec_at (m_parent_index t) (length (m_parent_index t) - 1);
  p1 ← vec_set (m_parent_index t) xi_index last_parent;
  p2 ← pop_back p1;
  let t' := mkFlatTree d2 p2 in
  v ← isValid t';
  _ ← assert v msg_remove_node;
  Done t'.

Definition remove (fuel : nat) (xi_parent_id : nat) t
    : outcome (bool * FlatTree T) :=
  if length (m_parent_index t) <=? xi_parent_id then Done (false, t) else
  v ← isValid t;
  if negb v then Done (false, t) else
  '(hasKids, descendants) ← getAllDescendants fuel t xi_parent_id [];
  if negb hasKids then Done (false, t) else
  t' ← for_each remove_node descendants t;
  Done (true, t').

(** *** Sequences of mutating calls *)

Inductive op : Type :=
  | op_insert (parent : nat) (value : T)
  | op_remove (target : nat)
  | op_clear
  | op_resize (count : nat).

Definition apply_op (fuel : nat) (o : op) t : outcome (FlatTree T) :=
  match o with
  | op_insert parent value => r ← insert parent value t; Done r.2
  | op_remove target => r ← remove fuel target t; Done r.2
  | op_clear => clear t
  | op_resize count => Done (resize count t)
  end.

Definition run (fuel : nat) (ops : list op) t : outcome (FlatTree T) :=
  for_each (apply_op fuel) ops t.

(** *** Traversal *)

(* [Traverse(parent, exec, func)].  The visitor is a function of the value
   it is handed; it is applied in place, element by element, in the order
   of the collected indices (the sequential policy; with a visitor of this
   kind and distinct indices the other policies end in the same tree). *)
Definition Traverse (fuel : nat) (xi_parent_index : nat) (xi_func : T → T) t
    : outcome (FlatTree T) :=
  '(hasKids, descendants) ← getAllDescendants fuel t xi_parent_index [];
  if negb hasKids then Done t else
  d ← for_each (λ elm d, x ← vec_at d elm; vec_set d elm (xi_func x))
               descendants (m_data t);
  Done (mkFlatTree d (m_parent_index t)).

(** *** Operators *)

(* tree << {parent index, node value} *)
Definition operator_shl (xi_node : nat * T) t : outcome (FlatTree T) :=
  r ← insert xi_node.1 xi_node.2 t;
  _ ← assert r.1 msg_insert;
  Done r.2.

(* tree << {parent index, {node value 1, node value 2, ...}} *)
Definition operator_shl_many (xi_node : nat * list T) t : outcome (FlatTree T) :=
  r ← insert_many xi_node.1 xi_node.2 t;
  _ ← assert r.1 msg_insert;
  Done r.2.

(* const T operator[](index) const *)
Definition operator_subscript t (xi_index : nat) : outcome T :=
  v ← isValid t;
  _ ← assert (v && (xi_index <? size t)) msg_none;
  vec_at (m_data t) xi_index.

(* tree[index] = value, through T& operator[](index) *)
Definition operator_subscript_assign t (xi_index : nat) (value : T)
    : outcome (FlatTree T) :=
  v ← isValid t;
  _ ← assert (v && (xi_index <? size t)) msg_none;
  d ← vec_set (m_data t) xi_index value;
  Done (mkFlatTree d (m_parent_index t)).

(* tree >> index *)
Definition operator_shr (fuel : nat) (xi_node : nat) t : outcome (FlatTree T) :=
  r ← remove fuel xi_node t;
  _ ← assert r.1 msg_remove;
  Done r.2.

(* tree >> {index 1, index 2, ...}: every removal is attempted, the
   conjunction of the results is asserted at the end *)
Definition operator_shr_many (fuel : nat) (xi_nodes : list nat) t
    : outcome (FlatTree T) :=
  st ← for_each (λ i (st : bool * FlatTree T),
                   r ← remove fuel i st.2; Done (st.1 && r.1, r.2))
                xi_nodes (true, t);
  _ ← assert st.1 msg_remove_many;
  Done st.2.

(** *** Output.  [show] is what [operator<<] writes for a value; the text
    sent to [std::cout] is the string returned. *)

(* one round of the loop of [dumpToConsoleMultiMap]: the parent's value,
   then the values of its first-generation descendants *)
Definition dumpToConsoleMultiMap_line (show : T → string) t (it : nat)
    : outcome string :=
  v ← vec_at (m_data t) it;
  r ← getDescendants t it [];
  if negb r.1 then Done (show v +:+ ": " +:+ newline) else
  k0 ← vec_at r.2 0;
  v0 ← vec_at (m_data t) k0;
  o ← for_each (λ k o, vk ← vec_at (m_data t) k; Done (o +:+ "," +:+ show vk))
               (drop 1 r.2) (show v +:+ ": " +:+ show v0);
  Done (o +:+ newline).

Definition dumpToConsoleMultiMap (show : T → string) t : outcome string :=
  let len := size t in
  if len =? 0 then Done EmptyString else
  let parents := std_unique (std_sort (m_parent_index t)) in
  for_each (λ it o, l ← dumpToConsoleMultiMap_line show t it; Done (o +:+ l))
           parents EmptyString.

(** *** Structural predicates used in the statements *)

(* what [isValid] checks: equal sizes and a zero root entry *)
Definition valid t : Prop :=
  length (m_data t) = length (m_parent_index t) ∧ m_parent_index t !! 0 = Some 0.

(* the indices whose parent entry is [p], in ascending order *)
Definition children t (p : nat) : list nat :=
  filter (λ k, m_parent_index t !! k = Some p) (seq 0 (length (m_parent_index t))).

Definition sizes_agree t : Prop := length (m_data t) = length (m_parent_index t).

#[global] Instance valid_dec t : Decision (valid t).
Proof. unfold valid. apply _. Defined.

(* every call except [resize(0)] *)
Definition keeps_root (o : op) : bool :=
  match o with
  | op_resize 0 => false
  | _ => true
  end.

(* following the parent entries from node [i] arrives at the root within
   [steps] hops *)
Fixpoint reaches_root (steps : nat) (parents : list nat) (i : nat) : bool :=
  match i, steps with
  | 0, _ => true
  | S _, 0 => false
  | S _, S steps' =>
      match parents !! i with
      | Some p => reaches_root steps' parents p
      | None => false
      end
  end.

(* every node reaches the root; a path without a cycle has fewer than
   [size()] hops *)
Definition forest t : bool :=
  forallb (reaches_root (size t) (m_parent_index t)) (seq 0 (size t)).

(* every parent entry is the index of a node *)
Definition parents_in_range t : Prop :=
  Forall (λ p, p < size t) (m_parent_index t).

End FlatTree.

Arguments op : clear implicits.

(** ** Trees used in the examples *)

(* the tree of [modifyTreeTest] and [traverseTreeTest] *)
Definition family_values : list string :=
  ["root"; "child1"; "child2"; "grand0"; "grand1"; "grand2"; "grand3"; "grand4"]%string.
Definition family_parents : list nat := [0; 0; 0; 1; 1; 1; 2; 2].
Definition family : FlatTree string := mkFlatTree family_values family_parents.

Definition lone_root : FlatTree string := FlatTree_root "root"%string.

Definition root_and_child : FlatTree string :=
  mkFlatTree ["root"; "child"]%string [0; 0].

(* node 1 has the single child 2; the last node, 4, is the parent of 3 *)
Definition last_is_parent : FlatTree string :=
  mkFlatTree ["n0"; "n1"; "n2"; "n3"; "n4"]%string [0; 0; 1; 4; 0].

(* a chain: 3 is a child of 2, which is a child of 1 *)
Definition chain : FlatTree string :=
  mkFlatTree ["n0"; "n1"; "n2"; "n3"]%string [0; 0; 1; 2].

Definition mutation_script : list (op string) :=
  [op_insert 0 "child1"; op_insert 0 "child2"; op_insert 1 "grand0";
   op_remove 1; op_clear; op_resize 3]%string.

(** * Properties *)

Lemma bind_Done {A B : Type} (a : A) (f : A → outcome B) : Done a ≫= f = f a.
Proof. reflexivity. Qed.

Lemma vec_at_Done {A : Type} (v : list A) (i : nat) (x : A) :
  v !! i = Some x → vec_at v i = Done x.
Proof. unfold vec_at. now intros ->. Qed.

Lemma for_each_app {A S : Type} (body : A → S → outcome S) (l1 l2 : list A) (s : S) :
  for_each body (l1 ++ l2) s = for_each body l1 s ≫= for_each body l2.
Proof.
  revert s. induction l1 as [|a l1 IH]; intros s; simpl; [reflexivity|].
  destruct (body a s); simpl; auto.
Qed.

Lemma std_count_zero (v : list nat) (x : nat) : std_count v x = 0 → x ∉ v.
Proof.
  induction v as [|y v IH]; simpl; intros Hc Hin.
  - inversion Hin.
  - destruct (Nat.eqb_spec y x) as [->|Hne]; [discriminate|].
    apply elem_of_cons in Hin as [->|Hin]; [congruence|]. now apply IH.
Qed.

Lemma std_count_head (v : list nat) (x : nat) : v !! 0 = Some x → 1 ≤ std_count v x.
Proof.
  destruct v as [|y v]; simpl; [discriminate|].
  intros [= ->]. rewrite Nat.eqb_refl. lia.
Qed.

Lemma std_find_head (v : list nat) (x : nat) : v !! 0 = Some x → std_find v x = 0.
Proof.
  destruct v as [|y v]; simpl; [discriminate|].
  intros [= ->]. now rewrite Nat.eqb_refl.
Qed.

Lemma filter_ascending (P : nat → Prop) `{!∀ k, Decision (P k)} (l : list nat) :
  StronglySorted lt l → StronglySorted lt (filter P l).
Proof.
  induction 1 as [|a l Hs IH Hall]; [constructor|].
  rewrite filter_cons. destruct (decide (P a)); [|assumption].
  constructor; [assumption|].
  apply Forall_forall. intros k Hk. apply list_elem_of_filter in Hk as [_ Hk].
  rewrite Forall_forall in Hall. auto.
Qed.

Lemma seq_ascending (n : nat) : ∀ a, StronglySorted lt (seq a n).
Proof.
  induction n as [|n IH]; intros a; simpl; constructor; [apply IH|].
  apply Forall_forall. intros k Hk. apply elem_of_seq in Hk. lia.
Qed.

(* split a successful sequence [m ≫= k] into its two successful halves *)
Ltac bind_inv H :=
  repeat match type of H with
  | (?m ≫= _) = Done _ =>
      let E := fresh "E" in
      destruct m eqn:E; cbn [mbind outcome_bind] in H; try discriminate H
  end.

Section FlatTree_properties.
Context {T : Type}.
Implicit Types (t : FlatTree T) (out : list nat).

(** ** Validity *)

Lemma isValid_true t : isValid t = Done true ↔ valid t.
Proof.
  unfold isValid, valid.
  destruct (Nat.eqb_spec (length (m_data t)) (length (m_parent_index t))) as [E|E].
  - unfold vec_at. destruct (m_parent_index t !! 0) as [r|]; simpl.
    + destruct (Nat.eqb_spec r 0) as [->|Hr]; split; try tauto; try discriminate.
      intros [_ [= ?]]. contradiction.
    + split; [discriminate|]. intros [_ ?]. discriminate.
  - split; [discriminate|]. tauto.
Qed.

Lemma valid_isValid t : valid t → isValid t = Done true.
Proof. apply isValid_true. Qed.

Lemma valid_size_pos t : valid t → 1 ≤ size t.
Proof.
  intros [E H0]. unfold size. rewrite E.
  apply lookup_lt_Some in H0. lia.
Qed.

(* [isValid] reads [m_parent_index[0]] only when the sizes agree, so it
   is defined on every state but the one with both vectors empty *)
Lemma invalid_isValid t :
  ¬ valid t → ¬ (m_data t = [] ∧ m_parent_index t = []) → isValid t = Done false.
Proof.
  intros Hnv Hne. unfold isValid.
  destruct (Nat.eqb_spec (length (m_data t)) (length (m_parent_index t))) as [E|E];
    [|reflexivity].
  unfold vec_at. destruct (m_parent_index t) as [|r ps] eqn:Hps; simpl.
  - destruct (m_data t); [tauto|discriminate].
  - destruct (Nat.eqb_spec r 0) as [->|Hr]; [|reflexivity].
    exfalso. apply Hnv. unfold valid. rewrite Hps. auto.
Qed.

(** ** The scan of [getDescendants] *)

Lemma getDescendants_body_read t p i st pi :
  m_parent_index t !! i = Some pi →
  getDescendants_body t p i st =
    if negb (pi =? p) then Done st else Done (true, emplace_back st.2 i).
Proof.
  intros Hpi. unfold getDescendants_body.
  now rewrite (vec_at_Done _ _ _ Hpi), bind_Done.
Qed.

Lemma getDescendants_scan t p n : ∀ a b out,
  a + n ≤ length (m_parent_index t) →
  for_each (getDescendants_body t p) (seq a n) (b, out) =
    Done (b || bool_decide (filter (λ k, m_parent_index t !! k = Some p) (seq a n) ≠ []),
          out ++ filter (λ k, m_parent_index t !! k = Some p) (seq a n)).
Proof.
  induction n as [|n IH]; intros a b out Hle; cbn [seq for_each].
  - rewrite filter_nil, app_nil_r, orb_false_r. reflexivity.
  - destruct (lookup_lt_is_Some_2 (m_parent_index t) a) as [pi Hpi]; [lia|].
    rewrite (getDescendants_body_read _ _ _ _ _ Hpi).
    destruct (Nat.eqb_spec pi p) as [->|Hne]; cbn [negb snd]; rewrite bind_Done.
    + rewrite IH by lia. rewrite filter_cons_True by exact Hpi.
      unfold emplace_back. rewrite <- app_assoc, orb_true_r. reflexivity.
    + rewrite IH by lia. rewrite filter_cons_False; [reflexivity|].
      rewrite Hpi. congruence.
Qed.

(* for a parent other than the root, scanning from index 1 misses nothing *)
Lemma children_skip_root t p :
  valid t → p ≠ 0 →
  children t p = filter (λ k, m_parent_index t !! k = Some p) (seq 1 (size t - 1)).
Proof.
  intros [E H0] Hp. unfold children, size. rewrite E.
  destruct (length (m_parent_index t)) as [|n] eqn:Hn.
  - apply lookup_lt_Some in H0. lia.
  - simpl seq. rewrite filter_cons_False by (rewrite H0; congruence).
    now rewrite Nat.sub_0_r.
Qed.

Lemma elem_of_children t p k : k ∈ children t p ↔ m_parent_index t !! k = Some p.
Proof.
  unfold children. rewrite list_elem_of_filter, elem_of_seq. split; [tauto|].
  intros H. split; [assumption|]. apply lookup_lt_Some in H. lia.
Qed.

Lemma children_ascending t p : StronglySorted lt (children t p).
Proof.
  unfold children. apply filter_ascending, seq_ascending.
Qed.

Lemma getDescendants_nonroot t p out :
  valid t → p ≠ 0 →
  getDescendants t p out =
    Done (bool_decide (children t p ≠ []), out ++ children t p).
Proof.
  intros Hv Hp. unfold getDescendants.
  rewrite (valid_isValid _ Hv), bind_Done. simpl negb. cbv iota.
  destruct (Nat.eqb_spec p 0) as [?|_]; [contradiction|].
  rewrite getDescendants_scan.
  - rewrite <- (children_skip_root _ _ Hv Hp). reflexivity.
  - pose proof (valid_size_pos _ Hv). destruct Hv as [E _]. unfold size in *. lia.
Qed.

(** ** Queries *)

(** C9: [getDescendants] (children_of).  On a tree (a state that is not
    the one with both vectors empty) a query for the root, parent 0,
    returns false and leaves [out] as it was.  On a valid tree and for a
    parent other than 0 the call appends to [out] exactly the indices [k]
    with [m_parent_index[k] == parent], in ascending order; it returns
    true when there is such an index, and returns false with [out]
    unchanged when there is none. *)
Theorem getDescendants_spec t out :
  (¬ (m_data t = [] ∧ m_parent_index t = []) →
     getDescendants t 0 out = Done (false, out)) ∧
  (∀ p, valid t → p ≠ 0 →
     getDescendants t p out =
       Done (bool_decide (children t p ≠ []), out ++ children t p) ∧
     (∀ k, k ∈ children t p ↔ m_parent_index t !! k = Some p) ∧
     StronglySorted lt (children t p) ∧
     ((∃ k, m_parent_index t !! k = Some p) →
        getDescendants t p out = Done (true, out ++ children t p)) ∧
     ((∀ k, m_parent_index t !! k ≠ Some p) →
        getDescendants t p out = Done (false, out))).
Proof.
  split.
  - intros Hne. unfold getDescendants.
    destruct (decide (valid t)) as [Hv|Hv].
    + now rewrite (valid_isValid _ Hv).
    + now rewrite (invalid_isValid _ Hv Hne).
  - intros p Hv Hp. rewrite (getDescendants_nonroot _ _ _ Hv Hp).
    split; [reflexivity|]. split; [apply elem_of_children|].
    split; [apply children_ascending|]. split.
    + intros [k Hk]. apply elem_of_children in Hk.
      rewrite bool_decide_eq_true_2; [reflexivity|].
      intros E. rewrite E in Hk. inversion Hk.
    + intros Hnone.
      assert (E : children t p = []).
      { apply elem_of_nil_inv. intros k Hk. apply elem_of_children in Hk.
        exact (Hnone k Hk). }
      rewrite E, app_nil_r. reflexivity.
Qed.

(** C10: when the root entry [m_parent_index[0]] is 0, the scans count
    that entry too: [doesIndexExist(0)] is true, [getNumOfDescendants(0)]
    is at least 1 and [isLeaf(0)] is false, whether or not the root has
    children. *)
Theorem root_counts_itself t :
  m_parent_index t !! 0 = Some 0 →
  doesIndexExist t 0 = true ∧
  1 ≤ getNumOfDescendants t 0 ∧
  isLeaf t 0 = Done false.
Proof.
  intros H0.
  pose proof (std_count_head _ _ H0) as Hc.
  pose proof (std_find_head _ _ H0) as Hf.
  pose proof (lookup_lt_Some _ _ _ H0) as Hlen.
  assert (Hcount : 1 ≤ getNumOfDescendants t 0).
  { unfold getNumOfDescendants, getNumOfDescendantsSequential,
      getNumOfDescendantsParallel.
    now destruct (size t <? size_for_parallelization). }
  split; [|split; [exact Hcount|]].
  - unfold doesIndexExist, doesIndexExistSequential, doesIndexExistParallel.
    rewrite Hf.
    destruct (Nat.eqb_spec 0 (length (m_parent_index t))) as [E|_]; [lia|].
    now destruct (size t <? size_for_parallelization).
  - unfold isLeaf.
    destruct (Nat.ltb_spec 0 (length (m_parent_index t))) as [_|?]; [|lia].
    cbn [assert]. rewrite bind_Done.
    destruct (Nat.eqb_spec (getNumOfDescendants t 0) 0) as [E|_]; [lia|reflexivity].
Qed.

(** ** Insertion *)

(** C8: [insert(parent, value)] returns false and changes neither vector
    when [parent >= size()] or the tree is invalid ([isValid] fails);
    otherwise it returns true, appends [value] to the values and [parent]
    to the parent indices, so the size grows by exactly one and the new
    node, at index [size() - 1], has [getParentIndex] equal to [parent]. *)
Theorem insert_spec t (parent : nat) (value : T) :
  (size t ≤ parent ∨ ¬ valid t → insert parent value t = Done (false, t)) ∧
  (parent < size t → valid t →
     ∃ t', insert parent value t = Done (true, t') ∧
           m_data t' = m_data t ++ [value] ∧
           m_parent_index t' = m_parent_index t ++ [parent] ∧
           size t' = S (size t) ∧
           getParentIndex t' (size t' - 1) = Done parent).
Proof.
  split.
  - intros Hfail. unfold insert.
    destruct (Nat.leb_spec (length (m_parent_index t)) parent) as [|Hlt];
      [reflexivity|].
    assert (Hnv : ¬ valid t).
    { destruct Hfail as [Hge|Hnv]; [|exact Hnv].
      intros [E _]. unfold size in Hge. lia. }
    rewrite (invalid_isValid _ Hnv); [reflexivity|].
    intros [_ Hp]. rewrite Hp in Hlt. simpl in Hlt. lia.
  - intros Hlt Hv. pose proof Hv as [E H0]. unfold size in Hlt.
    eexists. split.
    { unfold insert.
      destruct (Nat.leb_spec (length (m_parent_index t)) parent); [lia|].
      now rewrite (valid_isValid _ Hv). }
    cbn [m_data m_parent_index]. unfold emplace_back.
    split; [reflexivity|]. split; [reflexivity|].
    split; [unfold size; cbn [m_data]; rewrite length_app; simpl; lia|].
    unfold getParentIndex.
    rewrite valid_isValid.
    2:{ split; cbn [m_data m_parent_index].
        - rewrite !length_app. simpl. lia.
        - rewrite lookup_app_l; [exact H0|]. apply lookup_lt_Some in H0. lia. }
    rewrite bind_Done. cbn [assert]. rewrite bind_Done.
    unfold size. cbn [m_data m_parent_index]. rewrite !length_app. simpl length.
    replace (length (m_data t) + 1 - 1) with (length (m_parent_index t)) by lia.
    destruct (Nat.ltb_spec (length (m_parent_index t)) (length (m_parent_index t) + 1));
      [|lia].
    cbn [assert]. rewrite bind_Done.
    destruct (Nat.ltb_spec 0 (length (m_parent_index t))); [|lia].
    apply vec_at_Done. now rewrite list_lookup_middle.
Qed.

(** ** Removal of a leaf *)

Lemma leaf_no_children t i : getNumOfDescendants t i = 0 → children t i = [].
Proof.
  intros Hc.
  assert (Hs : std_count (m_parent_index t) i = 0).
  { revert Hc. unfold getNumOfDescendants, getNumOfDescendantsSequential,
      getNumOfDescendantsParallel.
    now destruct (size t <? size_for_parallelization). }
  apply elem_of_nil_inv. intros k Hk. apply elem_of_children in Hk.
  apply (std_count_zero _ _ Hs). eapply list_elem_of_lookup_2, Hk.
Qed.

(** C7: on a valid tree, for a node [i] other than the root with
    [i < size()]: when [i] is a leaf (no first-generation descendant),
    [remove(i)] returns false and leaves both vectors unchanged. *)
Theorem remove_leaf_fails t (i fuel : nat) :
  valid t → i ≠ 0 → i < size t → isLeaf t i = Done true →
  remove (S fuel) i t = Done (false, t).
Proof.
  intros Hv Hi Hlt Hleaf. pose proof Hv as [E _]. unfold size in Hlt.
  assert (Hkids : children t i = []).
  { apply leaf_no_children. revert Hleaf. unfold isLeaf.
    destruct (i <? length (m_parent_index t)); cbn [assert]; [|discriminate].
    rewrite bind_Done. intros [= Hz]. now apply Nat.eqb_eq. }
  unfold remove.
  destruct (Nat.leb_spec (length (m_parent_index t)) i); [lia|].
  rewrite (valid_isValid _ Hv), bind_Done. cbn [negb].
  cbn [getAllDescendants].
  destruct (Nat.eqb_spec i 0) as [?|_]; [contradiction|]. cbn [negb].
  unfold getAllDescendantsNotFromRoot.
  rewrite (getDescendants_nonroot _ _ _ Hv Hi), Hkids. reflexivity.
Qed.

(** ** All descendants *)

Lemma getAllDescendantsFromRoot_scan n : ∀ a (b : bool) out,
  for_each (λ i (st : bool * list nat), Done (true, emplace_back st.2 i))
           (seq a n) (b, out) =
    Done (match n with 0 => b | S _ => true end, out ++ seq a n).
Proof.
  induction n as [|n IH]; intros a b out; cbn [seq for_each].
  - now rewrite app_nil_r.
  - rewrite bind_Done, IH. cbn [snd]. unfold emplace_back.
    rewrite <- app_assoc. now destruct n.
Qed.

Lemma getAllDescendants_root t out fuel :
  getAllDescendants (S fuel) t 0 out =
    Done (bool_decide (1 < size t), out ++ seq 1 (size t - 1)).
Proof.
  cbn [getAllDescendants Nat.eqb negb]. unfold getAllDescendantsFromRoot.
  rewrite getAllDescendantsFromRoot_scan.
  destruct (size t) as [|[|n]]; reflexivity.
Qed.

(** C6, as the code has it: [getAllDescendants(0, out)] appends every
    non-root index, 1 through [size() - 1], in ascending order, and returns
    false exactly when there is none ([size() <= 1]).  On a valid tree and
    for a parent other than 0, the call returns false if and only if the
    parent has no children, and then [out] is unchanged. *)
Theorem getAllDescendants_spec t out (fuel : nat) :
  getAllDescendants (S fuel) t 0 out =
    Done (bool_decide (1 < size t), out ++ seq 1 (size t - 1)) ∧
  (∀ p, valid t → p ≠ 0 →
     ((∃ out', getAllDescendants (S fuel) t p out = Done (false, out'))
        ↔ children t p = []) ∧
     (children t p = [] → getAllDescendants (S fuel) t p out = Done (false, out))).
Proof.
  split; [apply getAllDescendants_root|].
  intros p Hv Hp.
  assert (Hcall : getAllDescendants (S fuel) t p out =
            getAllDescendantsNotFromRoot (getAllDescendants fuel t) t p out).
  { cbn [getAllDescendants]. now destruct (Nat.eqb_spec p 0). }
  rewrite Hcall. unfold getAllDescendantsNotFromRoot.
  rewrite (getDescendants_nonroot _ _ _ Hv Hp), bind_Done.
  destruct (children t p) as [|k ks]; cbn [negb].
  - rewrite app_nil_r.
    split; [split; [reflexivity|eexists; reflexivity]|reflexivity].
  - rewrite bool_decide_eq_true_2 by discriminate. cbn [negb].
    split; [|discriminate].
    split; [|discriminate]. intros [out' Hr]. exfalso. revert Hr.
    match goal with |- ?m ≫= _ = _ → _ => destruct m end; discriminate.
Qed.

(** ** Removal at the root *)

(** C1, as the code has it: [remove(0)] returns false and leaves both
    vectors unchanged when the tree is invalid or holds only its root.  On
    a valid tree with further nodes the call never reports failure; with
    exactly two nodes it returns true and removes the second, leaving the
    root alone. *)
Theorem remove_root_spec t (fuel : nat) :
  (¬ valid t ∨ size t = 1 → remove (S fuel) 0 t = Done (false, t)) ∧
  (valid t → size t = 2 →
     remove (S fuel) 0 t =
       Done (true, mkFlatTree (take 1 (m_data t)) (take 1 (m_parent_index t)))) ∧
  (valid t → 2 ≤ size t → ∀ t', remove (S fuel) 0 t ≠ Done (false, t')).
Proof.
  split; [|split].
  - intros Hcase. unfold remove.
    destruct (Nat.leb_spec (length (m_parent_index t)) 0) as [|Hlt]; [reflexivity|].
    destruct (decide (valid t)) as [Hv|Hnv].
    + destruct Hcase as [?|Hs]; [contradiction|].
      rewrite (valid_isValid _ Hv), bind_Done. cbn [negb].
      rewrite getAllDescendants_root, Hs. reflexivity.
    + rewrite (invalid_isValid _ Hnv); [reflexivity|].
      intros [_ Hp]. rewrite Hp in Hlt. simpl in Hlt. lia.
  - intros [E H0] Hs. destruct t as [d ps]. unfold size in Hs.
    cbn [m_data m_parent_index] in *.
    destruct d as [|r [|c [|? ?]]]; try discriminate.
    destruct ps as [|p0 [|p1 [|? ?]]]; try discriminate.
    injection H0 as ->. reflexivity.
  - intros Hv Hs t'. pose proof Hv as [E _]. unfold size in Hs. unfold remove.
    destruct (Nat.leb_spec (length (m_parent_index t)) 0); [lia|].
    rewrite (valid_isValid _ Hv), bind_Done. cbn [negb].
    rewrite getAllDescendants_root, bind_Done.
    rewrite bool_decide_eq_true_2 by (unfold size; lia). cbn [negb].
    match goal with |- ?m ≫= _ ≠ _ => destruct m end; discriminate.
Qed.

(** ** Invariants along sequences of mutating calls *)

Lemma valid_sizes_agree t : valid t → sizes_agree t.
Proof. now intros [E _]. Qed.

Lemma remove_node_valid i t t' : remove_node i t = Done t' → valid t → valid t'.
Proof.
  unfold remove_node. destruct (i =? 0); [now intros [= <-]|].
  intros H _. bind_inv H.
  match goal with Hv : isValid _ = Done ?b |- _ => destruct b end;
    cbn [assert mbind outcome_bind] in H; [|discriminate].
  injection H as <-. now apply isValid_true.
Qed.

Lemma remove_nodes_valid (kids : list nat) : ∀ t t',
  for_each remove_node kids t = Done t' → valid t → valid t'.
Proof.
  induction kids as [|k kids IH]; intros t t' H Hv; cbn [for_each] in H.
  - now injection H as <-.
  - bind_inv H. eapply IH; [exact H|]. eapply remove_node_valid; eassumption.
Qed.

(* a call of [remove] that returns leaves the tree as it was or valid *)
Lemma remove_result fuel i t b t' :
  remove fuel i t = Done (b, t') → t' = t ∨ valid t'.
Proof.
  unfold remove. destruct (length (m_parent_index t) <=? i).
  { intros [= _ <-]. now left. }
  intros H. bind_inv H.
  match goal with Hv : isValid t = Done ?v |- _ => destruct v end; cbn [negb] in H.
  2:{ injection H as _ <-. now left. }
  bind_inv H.
  match goal with p : (bool * list nat)%type |- _ => destruct p as [hasKids kids] end.
  destruct hasKids; cbn [negb] in H.
  2:{ injection H as _ <-. now left. }
  bind_inv H. injection H as _ <-. right.
  eapply remove_nodes_valid; [eassumption|]. now apply isValid_true.
Qed.

Lemma insert_result p x t b t' :
  insert p x t = Done (b, t') →
  t' = t ∨ (valid t ∧ t' = mkFlatTree (m_data t ++ [x]) (m_parent_index t ++ [p])).
Proof.
  unfold insert. destruct (length (m_parent_index t) <=? p).
  { intros [= _ <-]. now left. }
  intros H. bind_inv H.
  match goal with Hv : isValid t = Done ?v |- _ => destruct v end; cbn [negb] in H.
  - injection H as _ <-. right. split; [now apply isValid_true|reflexivity].
  - injection H as _ <-. now left.
Qed.

Lemma valid_emplace_back t x p :
  valid t → valid (mkFlatTree (m_data t ++ [x]) (m_parent_index t ++ [p])).
Proof.
  intros [E H0]. split; cbn [m_data m_parent_index].
  - rewrite !length_app. simpl. lia.
  - rewrite lookup_app_l; [exact H0|]. apply lookup_lt_Some in H0. lia.
Qed.

Lemma length_vec_resize {A : Type} (d : A) (v : list A) (n : nat) :
  length (vec_resize d v n) = n.
Proof. unfold vec_resize. rewrite length_app, length_take, length_replicate. lia. Qed.

Lemma resize_sizes_agree `{!Inhabited T} n t : sizes_agree (resize n t).
Proof. unfold sizes_agree, resize. cbn [m_data m_parent_index]. now rewrite !length_vec_resize. Qed.

Lemma resize_valid `{!Inhabited T} n t : valid t → 1 ≤ n → valid (resize n t).
Proof.
  intros [E H0] Hn. split; [apply resize_sizes_agree|].
  unfold resize, vec_resize. cbn [m_parent_index].
  pose proof (lookup_lt_Some _ _ _ H0).
  rewrite lookup_app_l by (rewrite length_take; lia).
  rewrite lookup_take_lt by lia. exact H0.
Qed.

Lemma clear_valid t t' : clear t = Done t' → valid t'.
Proof.
  unfold clear. intros H. bind_inv H. injection H as <-. now split.
Qed.

Lemma apply_op_sizes_agree `{!Inhabited T} fuel o t t' :
  apply_op fuel o t = Done t' → sizes_agree t → sizes_agree t'.
Proof.
  destruct o as [p x|i| |n]; cbn [apply_op]; intros H Hs.
  - bind_inv H. injection H as <-.
    match goal with p : (bool * FlatTree T)%type |- _ => destruct p as [b t1] end.
    match goal with Hi : insert _ _ _ = _ |- _ =>
      apply insert_result in Hi as [->|[Hv ->]] end; [assumption|].
    apply valid_sizes_agree, valid_emplace_back, Hv.
  - bind_inv H. injection H as <-.
    match goal with p : (bool * FlatTree T)%type |- _ => destruct p as [b t1] end.
    match goal with Hr : remove _ _ _ = _ |- _ =>
      apply remove_result in Hr as [->|Hv] end; [assumption|].
    now apply valid_sizes_agree.
  - eapply valid_sizes_agree, clear_valid, H.
  - injection H as <-. apply resize_sizes_agree.
Qed.

Lemma apply_op_valid `{!Inhabited T} fuel o t t' :
  apply_op fuel o t = Done t' → keeps_root o = true → valid t → valid t'.
Proof.
  destruct o as [p x|i| |n]; cbn [apply_op]; intros H Hk Hv.
  - bind_inv H. injection H as <-.
    match goal with p : (bool * FlatTree T)%type |- _ => destruct p as [b t1] end.
    match goal with Hi : insert _ _ _ = _ |- _ =>
      apply insert_result in Hi as [->|[_ ->]] end; [assumption|].
    now apply valid_emplace_back.
  - bind_inv H. injection H as <-.
    match goal with p : (bool * FlatTree T)%type |- _ => destruct p as [b t1] end.
    match goal with Hr : remove _ _ _ = _ |- _ =>
      apply remove_result in Hr as [->|Hv'] end; assumption.
  - eapply clear_valid, H.
  - injection H as <-. apply resize_valid; [assumption|].
    destruct n; [discriminate|lia].
Qed.

(* [insert], [clear] and [resize] return on every valid tree *)
Lemma apply_op_returns `{!Inhabited T} fuel o t :
  valid t → (∀ i, o ≠ op_remove i) → ∃ t', apply_op fuel o t = Done t'.
Proof.
  intros Hv Ho. destruct o as [p x|i| |n]; cbn [apply_op].
  - unfold insert. destruct (length (m_parent_index t) <=? p); [now eexists|].
    rewrite (valid_isValid _ Hv). now eexists.
  - now destruct (Ho i).
  - unfold clear. destruct Hv as [E H0]. apply lookup_lt_Some in H0.
    destruct (lookup_lt_is_Some_2 (m_data t) 0) as [r Hr]; [lia|].
    rewrite (vec_at_Done _ _ _ Hr). now eexists.
  - now eexists.
Qed.

(** Starting from a valid tree, after any sequence of [insert], [remove],
    [clear] and [resize] calls that has returned, the two vectors have
    equal length; and when no call in the sequence is [resize(0)], the tree
    also has at least its root and [m_parent_index[0] == 0]. *)
Theorem run_invariants `{!Inhabited T} (fuel : nat) (ops : list (op T)) t t' :
  valid t → run fuel ops t = Done t' →
  length (m_data t') = length (m_parent_index t') ∧
  (forallb keeps_root ops = true →
     1 ≤ length (m_data t') ∧ m_parent_index t' !! 0 = Some 0).
Proof.
  unfold run. intros Hv Hrun. split.
  - apply valid_sizes_agree in Hv. revert t Hv Hrun.
    induction ops as [|o ops IH]; intros t Hs Hrun; cbn [for_each] in Hrun.
    + now injection Hrun as <-.
    + bind_inv Hrun. eapply IH; [|exact Hrun].
      eapply apply_op_sizes_agree; eassumption.
  - intros Hall. enough (Hv' : valid t').
    { split; [apply (valid_size_pos _ Hv')|apply Hv']. }
    revert t Hv Hrun.
    induction ops as [|o ops IH]; intros t Hv Hrun; cbn [for_each] in Hrun.
    + now injection Hrun as <-.
    + cbn [forallb] in Hall. apply andb_true_iff in Hall as [Ho Hall].
      bind_inv Hrun. eapply IH; [exact Hall| |exact Hrun].
      eapply apply_op_valid; eassumption.
Qed.

(** ** Constructors *)

(** The constructor from two general collections succeeds exactly when
    the collections have the same length and the first parent index is 0;
    the tree it returns holds the two input sequences, element by element
    and in their order. *)
Lemma FlatTree_from_collections_Done (xi_data : list T) (xi_parent_index : list nat) t :
  FlatTree_from_collections xi_data xi_parent_index = Done t ↔
  length xi_data = length xi_parent_index ∧ xi_parent_index !! 0 = Some 0 ∧
  t = mkFlatTree xi_data xi_parent_index.
Proof.
  unfold FlatTree_from_collections. cbn [m_parent_index].
  destruct (Nat.eqb_spec (length xi_data) (length xi_parent_index)) as [E|E];
    cbn [assert mbind outcome_bind].
  2:{ split; [discriminate|tauto]. }
  unfold vec_at. destruct (xi_parent_index !! 0) as [r|]; cbn [mbind outcome_bind].
  2:{ split; [discriminate|]. intros (_ & ? & _). discriminate. }
  destruct (Nat.eqb_spec r 0) as [->|Hr]; cbn [assert mbind outcome_bind].
  - split; [intros [= <-]; auto|]. now intros (_ & _ & ->).
  - split; [discriminate|]. intros (_ & [= ?] & _). contradiction.
Qed.

Lemma FlatTree_from_collections_errors (xi_data : list T) (xi_parent_index : list nat) :
  (length xi_data ≠ length xi_parent_index →
     FlatTree_from_collections xi_data xi_parent_index = Abort msg_sizes) ∧
  (∀ r, length xi_data = length xi_parent_index →
     xi_parent_index !! 0 = Some r → r ≠ 0 →
     FlatTree_from_collections xi_data xi_parent_index = Abort msg_root).
Proof.
  unfold FlatTree_from_collections. cbn [m_parent_index]. split.
  - intros Hne. now destruct (Nat.eqb_spec (length xi_data) (length xi_parent_index)).
  - intros r E Hr Hnz.
    destruct (Nat.eqb_spec (length xi_data) (length xi_parent_index)); [|contradiction].
    cbn [assert]. rewrite bind_Done, (vec_at_Done _ _ _ Hr), bind_Done.
    now destruct (Nat.eqb_spec r 0).
Qed.

(* the vector overload checks the sizes only *)
Lemma FlatTree_from_vectors_Done (xi_data : list T) (xi_parent_index : list nat) :
  length xi_data = length xi_parent_index →
  FlatTree_from_vectors xi_data xi_parent_index = Done (mkFlatTree xi_data xi_parent_index).
Proof.
  intros E. unfold FlatTree_from_vectors. cbn [m_data m_parent_index].
  now destruct (Nat.eqb_spec (length xi_data) (length xi_parent_index)).
Qed.

End FlatTree_properties.

(** * Concrete trees *)

(** C2, as the code has it: on the tree built from the eight values and
    the parent indices [0,0,0,1,1,1,2,2], [getNumOfDescendants(0)] is 3
    (the root entry counts itself), [getNumOfDescendants(1)] is 3,
    [getNumOfDescendants(2)] is 2, [isLeaf(3)] is true, [isLeaf(0)] is
    false and [getParentIndex(5)] is 1. *)
Theorem family_queries :
  FlatTree_from_vectors family_values family_parents = Done family ∧
  getNumOfDescendants family 0 = 3 ∧
  getNumOfDescendants family 1 = 3 ∧
  getNumOfDescendants family 2 = 2 ∧
  isLeaf family 3 = Done true ∧
  isLeaf family 0 = Done false ∧
  getParentIndex family 5 = Done 1.
Proof. repeat split. Qed.

(* the root count on that tree is not 2 *)
Lemma family_root_count_is_not_2 :
  FlatTree_from_vectors family_values family_parents = Done family ∧
  getNumOfDescendants family 0 ≠ 2.
Proof. split; [reflexivity|]. vm_compute. discriminate. Qed.

(** C4 at a failing input: the vector overload of the constructor accepts
    two equal-length vectors whose first parent entry is 1, where the
    overload for other collections stops on its root assertion. *)
Theorem vector_constructor_accepts_bad_root :
  FlatTree_from_vectors ["a"; "b"]%string [1; 0]
    = Done (mkFlatTree ["a"; "b"]%string [1; 0]) ∧
  FlatTree_from_collections ["a"; "b"]%string [1; 0] = Abort msg_root.
Proof. split; reflexivity. Qed.

(** C3 at a failing input: [last_is_parent] is a valid forest in which
    node 1 has the single descendant 2.  [remove(1)] returns true and
    removes that node, but the node moved into its slot was the parent of
    node 3, whose parent entry still says 4: in the four-node result it
    points outside the tree, and node 3 no longer reaches the root. *)
Theorem remove_leaves_dangling_parent :
  let t' := mkFlatTree ["n0"; "n1"; "n4"; "n3"]%string [0; 0; 0; 4] in
  valid last_is_parent ∧ forest last_is_parent = true ∧
  getAllDescendants 2 last_is_parent 1 [] = Done (true, [2]) ∧
  remove 2 1 last_is_parent = Done (true, t') ∧
  size t' = 4 ∧ m_parent_index t' !! 3 = Some 4 ∧
  reaches_root (size t') (m_parent_index t') 3 = false ∧
  forest t' = false.
Proof. repeat split. Qed.

(* [remove(0)] on a root with one child reports success and removes the
   child *)
Lemma remove_root_of_two_succeeds :
  remove 1 0 root_and_child = Done (true, lone_root) ∧
  lone_root ≠ root_and_child.
Proof. split; [reflexivity|discriminate]. Qed.

(** C5 at a failing input: [resize(0)] on the single-root tree returns with
    both vectors empty, so the tree has no root: its length is below 1 and
    there is no entry [m_parent_index[0]].  [clear] and [remove_node], by
    contrast, keep the root in place. *)
Theorem resize_zero_drops_root :
  valid lone_root ∧
  run 0 [op_resize 0] lone_root = Done (mkFlatTree [] []) ∧
  ¬ (1 ≤ length (m_data (mkFlatTree (T := string) [] []))) ∧
  m_parent_index (mkFlatTree (T := string) [] []) !! 0 ≠ Some 0.
Proof.
  split; [now split|]. split; [reflexivity|]. split; [simpl; lia|discriminate].
Qed.

(* with three nodes or more, [remove(0)] holds indices collected before the
   first swap-and-pop; the last of them is outside the shrunken vectors *)
Lemma remove_root_of_family_out_of_range :
  getAllDescendants 1 family 0 [] = Done (true, [1; 2; 3; 4; 5; 6; 7]) ∧
  remove 1 0 family = Undefined.
Proof. split; reflexivity. Qed.

(* with nothing but the root, [getAllDescendants(0, out)] returns false
   although the parent is 0 *)
Lemma all_descendants_of_lone_root_false :
  getAllDescendants 1 lone_root 0 [] = Done (false, []) ∧
  ¬ (0 ≠ 0 ∧ children lone_root 0 = []).
Proof. split; [reflexivity|]. intros [H _]. now apply H. Qed.

(** The descendant collection revisits what is already in the output
    vector: once a collected node has a child of its own, the nested call
    on that node finds it again and calls itself without end.  So
    [remove] does not return on a node that has a grandchild, whatever
    the recursion budget. *)
Lemma getAllDescendants_revisits (fuel : nat) : ∀ out,
  getAllDescendants fuel chain 2 (2 :: out) = Timeout.
Proof.
  induction fuel as [|fuel IH]; intros out; [reflexivity|].
  cbn [getAllDescendants Nat.eqb negb]. unfold getAllDescendantsNotFromRoot.
  rewrite getDescendants_nonroot by (try discriminate; split; reflexivity).
  change (children chain 2) with [3]. rewrite bind_Done.
  change (bool_decide ([3] ≠ [])) with true.
  cbn [negb app for_each]. now rewrite IH.
Qed.

Lemma remove_chain_never_returns (fuel : nat) : remove fuel 1 chain = Timeout.
Proof.
  unfold remove. change (length (m_parent_index chain) <=? 1) with false.
  cbv iota. change (isValid chain) with (Done true). rewrite bind_Done.
  cbn [negb]. destruct fuel as [|fuel]; [reflexivity|].
  cbn [getAllDescendants Nat.eqb negb]. unfold getAllDescendantsNotFromRoot.
  rewrite getDescendants_nonroot by (try discriminate; split; reflexivity).
  change (children chain 1) with [2]. rewrite bind_Done.
  change (bool_decide ([2] ≠ [])) with true.
  cbn [negb app for_each]. now rewrite getAllDescendants_revisits.
Qed.

(** * Instances of the general statements *)

Lemma getDescendants_spec_witness :
  getDescendants family 0 [9] = Done (false, [9]) ∧
  getDescendants family 1 [9] = Done (true, [9; 3; 4; 5]) ∧
  getDescendants family 3 [9] = Done (false, [9]).
Proof.
  destruct (getDescendants_spec family [9]) as [Hroot Hother].
  split; [|split].
  - apply Hroot. intros [Hd _]. discriminate Hd.
  - destruct (Hother 1) as [H _]; [split; reflexivity|discriminate|exact H].
  - destruct (Hother 3) as (H & _); [split; reflexivity|discriminate|exact H].
Defined.

Lemma root_counts_itself_witness :
  doesIndexExist lone_root 0 = true ∧
  1 ≤ getNumOfDescendants lone_root 0 ∧
  isLeaf lone_root 0 = Done false.
Proof. apply (root_counts_itself lone_root). reflexivity. Defined.

Lemma insert_spec_witness :
  insert 5 "x"%string lone_root = Done (false, lone_root) ∧
  ∃ t', insert 0 "child1"%string lone_root = Done (true, t') ∧
        m_data t' = ["root"; "child1"]%string ∧
        m_parent_index t' = [0; 0] ∧
        size t' = 2 ∧
        getParentIndex t' (size t' - 1) = Done 0.
Proof.
  split.
  - apply (proj1 (insert_spec lone_root 5 "x"%string)). left. vm_compute. lia.
  - apply (proj2 (insert_spec lone_root 0 "child1"%string)).
    + vm_compute. lia.
    + split; reflexivity.
Defined.

Lemma remove_leaf_fails_witness :
  remove 1 3 family = Done (false, family).
Proof.
  apply (remove_leaf_fails family 3 0).
  - split; reflexivity.
  - discriminate.
  - vm_compute. lia.
  - reflexivity.
Defined.

Lemma getAllDescendants_spec_witness :
  getAllDescendants 1 family 0 [] = Done (true, [1; 2; 3; 4; 5; 6; 7]) ∧
  getAllDescendants 1 family 3 [] = Done (false, []).
Proof.
  destruct (getAllDescendants_spec family [] 0) as [Hroot Hother].
  split; [exact Hroot|].
  destruct (Hother 3) as [_ H]; [split; reflexivity|discriminate|].
  apply H. reflexivity.
Defined.

Lemma remove_root_spec_witness :
  remove 1 0 lone_root = Done (false, lone_root) ∧
  remove 1 0 root_and_child = Done (true, lone_root).
Proof.
  split.
  - apply (proj1 (remove_root_spec lone_root 0)). right. reflexivity.
  - apply (proj1 (proj2 (remove_root_spec root_and_child 0)));
      [split; reflexivity|reflexivity].
Defined.

Lemma run_invariants_witness :
  let t' := mkFlatTree ["root"%string; inhabitant; inhabitant] [0; 0; 0] in
  run 2 mutation_script lone_root = Done t' ∧
  length (m_data t') = length (m_parent_index t') ∧
  1 ≤ length (m_data t') ∧ m_parent_index t' !! 0 = Some 0.
Proof.
  intros t'. split; [reflexivity|].
  destruct (run_invariants 2 mutation_script lone_root t') as [Hlen Hroot];
    [split; reflexivity|reflexivity|].
  split; [exact Hlen|]. apply Hroot. reflexivity.
Defined.

(** * Further properties of the queries *)

Lemma std_find_end (v : list nat) (x : nat) : std_find v x = length v ↔ x ∉ v.
Proof.
  induction v as [|y v IH]; simpl.
  - split; [intros _ H; inversion H|reflexivity].
  - rewrite not_elem_of_cons. destruct (Nat.eqb_spec y x) as [->|Hne].
    + split; [discriminate|]. intros [H _]. contradiction.
    + split.
      * intros [= E]. split; [congruence|]. now apply IH.
      * intros [_ H]. f_equal. now apply IH.
Qed.

Lemma std_count_zero_iff (v : list nat) (x : nat) : std_count v x = 0 ↔ x ∉ v.
Proof.
  split; [apply std_count_zero|].
  induction v as [|y v IH]; intros Hn; [reflexivity|].
  apply not_elem_of_cons in Hn as [Hne Hn]. simpl.
  destruct (Nat.eqb_spec y x); [congruence|]. now apply IH.
Qed.

Lemma std_count_app (v w : list nat) (x : nat) :
  std_count (v ++ w) x = std_count v x + std_count w x.
Proof. induction v as [|y v IH]; simpl; [reflexivity|]. rewrite IH. lia. Qed.

Lemma filter_ext_elem {A : Type} (P Q : A → Prop)
    `{!∀ x, Decision (P x)} `{!∀ x, Decision (Q x)} (l : list A) :
  (∀ x, x ∈ l → P x ↔ Q x) → filter P l = filter Q l.
Proof.
  induction l as [|a l IH]; intros Hext; [reflexivity|].
  rewrite !filter_cons.
  rewrite IH by (intros x Hx; apply Hext; now right).
  destruct (decide (P a)) as [Hp|Hp], (decide (Q a)) as [Hq|Hq]; try reflexivity.
  - exfalso. apply Hq, Hext; [left|assumption].
  - exfalso. apply Hp, Hext; [left|assumption].
Qed.

Lemma std_count_positions (v : list nat) (x : nat) :
  std_count v x = length (filter (λ k, v !! k = Some x) (seq 0 (length v))).
Proof.
  induction v as [|y v IH] using rev_ind; [reflexivity|].
  rewrite std_count_app, length_app. cbn [length std_count].
  rewrite seq_app, filter_app, length_app. cbn [seq Nat.add].
  rewrite (filter_ext_elem (λ k, (v ++ [y]) !! k = Some x) (λ k, v !! k = Some x)).
  2:{ intros k Hk. apply elem_of_seq in Hk. rewrite lookup_app_l by lia. reflexivity. }
  rewrite <- IH. f_equal.
  rewrite filter_cons, filter_nil.
  rewrite list_lookup_middle by reflexivity.
  destruct (Nat.eqb_spec y x) as [->|Hne].
  - rewrite decide_True by reflexivity. reflexivity.
  - rewrite decide_False by congruence. reflexivity.
Qed.

Section FlatTree_queries.
Context {T : Type}.
Implicit Types (t : FlatTree T) (out : list nat).

Lemma getNumOfDescendants_count t p :
  getNumOfDescendants t p = std_count (m_parent_index t) p.
Proof.
  unfold getNumOfDescendants, getNumOfDescendantsSequential,
    getNumOfDescendantsParallel.
  now destruct (size t <? size_for_parallelization).
Qed.

(** [doesIndexExist(i)] does not ask whether node [i] exists: it is true
    exactly when some node has [i] as its parent entry, that is, when
    [getNumOfDescendants(i)] is not 0. *)
Theorem doesIndexExist_spec t (i : nat) :
  (doesIndexExist t i = true ↔ ∃ k, m_parent_index t !! k = Some i) ∧
  doesIndexExist t i = negb (getNumOfDescendants t i =? 0).
Proof.
  assert (Hfind : doesIndexExist t i = bool_decide (i ∈ m_parent_index t)).
  { unfold doesIndexExist, doesIndexExistSequential, doesIndexExistParallel.
    pose proof (std_find_end (m_parent_index t) i) as Hend.
    destruct (Nat.eqb_spec (std_find (m_parent_index t) i) (length (m_parent_index t)))
      as [E|E].
    - rewrite bool_decide_eq_false_2 by (now apply Hend).
      now destruct (size t <? size_for_parallelization).
    - rewrite bool_decide_eq_true_2.
      + now destruct (size t <? size_for_parallelization).
      + destruct (decide (i ∈ m_parent_index t)) as [|Hn]; [assumption|].
        now apply Hend in Hn. }
  split.
  - rewrite Hfind, bool_decide_eq_true. apply list_elem_of_lookup.
  - rewrite Hfind, getNumOfDescendants_count.
    destruct (Nat.eqb_spec (std_count (m_parent_index t) i) 0) as [E|E]; cbn [negb].
    + apply bool_decide_eq_false_2. now apply std_count_zero_iff.
    + apply bool_decide_eq_true_2.
      destruct (decide (i ∈ m_parent_index t)) as [|Hn]; [assumption|].
      now apply std_count_zero_iff in Hn.
Qed.

(** [getNumOfDescendants(p)] is the number of indices [k], the root's own
    index 0 included, with [m_parent_index[k] == p]. *)
Theorem getNumOfDescendants_spec t (p : nat) :
  getNumOfDescendants t p = length (children t p) ∧
  (∀ k, k ∈ children t p ↔ m_parent_index t !! k = Some p) ∧
  NoDup (children t p).
Proof.
  split; [|split].
  - rewrite getNumOfDescendants_count. apply std_count_positions.
  - apply elem_of_children.
  - unfold children. apply NoDup_filter, NoDup_seq.
Qed.

(** For a node other than the root of a valid tree the three queries
    agree: [getDescendants] appends [getNumOfDescendants(p)] indices, and
    it returns true exactly when [isLeaf(p)] is false. *)
Theorem queries_agree_off_root t (p : nat) out :
  valid t → p ≠ 0 → p < size t →
  ∃ (b : bool) (ks : list nat),
    getDescendants t p out = Done (b, out ++ ks) ∧
    length ks = getNumOfDescendants t p ∧
    isLeaf t p = Done (negb b) ∧
    doesIndexExist t p = b.
Proof.
  intros Hv Hp Hlt. pose proof Hv as [E _]. unfold size in Hlt.
  exists (bool_decide (children t p ≠ [])), (children t p).
  split; [now apply getDescendants_nonroot|].
  assert (Hlen : length (children t p) = getNumOfDescendants t p).
  { rewrite getNumOfDescendants_count. symmetry. apply std_count_positions. }
  assert (Hb : bool_decide (children t p ≠ []) = negb (getNumOfDescendants t p =? 0)).
  { rewrite <- Hlen. destruct (children t p); reflexivity. }
  split; [exact Hlen|]. split.
  - unfold isLeaf.
    destruct (Nat.ltb_spec p (length (m_parent_index t))); [|lia].
    cbn [assert]. rewrite bind_Done, Hb, negb_involutive. reflexivity.
  - rewrite Hb. clear Hb Hlen.
    unfold doesIndexExist, doesIndexExistSequential, doesIndexExistParallel.
    rewrite getNumOfDescendants_count.
    pose proof (std_find_end (m_parent_index t) p) as Hend.
    assert (Hres : (if std_find (m_parent_index t) p =? length (m_parent_index t)
                    then false else true)
                   = negb (std_count (m_parent_index t) p =? 0)).
    { destruct (Nat.eqb_spec (std_find (m_parent_index t) p)
                  (length (m_parent_index t))) as [F|F].
      - apply Hend, std_count_zero_iff in F. now rewrite F.
      - destruct (Nat.eqb_spec (std_count (m_parent_index t) p) 0) as [C|];
          [|reflexivity].
        exfalso. now apply F, Hend, std_count_zero_iff. }
    now destruct (size t <? size_for_parallelization).
Qed.

(** [isLeaf(i)] stops on its assertion for an index at or beyond the end
    of the parent vector; for any other index it returns true exactly when
    no parent entry equals [i]. *)
Theorem isLeaf_spec t (i : nat) :
  (length (m_parent_index t) ≤ i → isLeaf t i = Abort msg_index) ∧
  (i < length (m_parent_index t) →
     isLeaf t i = Done (bool_decide (i ∉ m_parent_index t))).
Proof.
  unfold isLeaf. split; intros Hi.
  - destruct (Nat.ltb_spec i (length (m_parent_index t))); [lia|reflexivity].
  - destruct (Nat.ltb_spec i (length (m_parent_index t))); [|lia].
    cbn [assert]. rewrite bind_Done. f_equal.
    rewrite getNumOfDescendants_count.
    destruct (Nat.eqb_spec (std_count (m_parent_index t) i) 0) as [C|C].
    + symmetry. apply bool_decide_eq_true_2. now apply std_count_zero_iff.
    + symmetry. apply bool_decide_eq_false_2. intros Hn. apply C.
      now apply std_count_zero_iff.
Qed.

(** On a valid tree [getParentIndex(i)] returns the stored parent entry of
    every node, the root included, and stops on its index assertion for
    any [i >= size()].  On an invalid tree that holds an element it stops
    on its structure assertion, whatever the index. *)
Theorem getParentIndex_spec t (i : nat) :
  (valid t → ∀ p, getParentIndex t i = Done p ↔ m_parent_index t !! i = Some p) ∧
  (valid t → size t ≤ i → getParentIndex t i = Abort msg_index) ∧
  (¬ valid t → ¬ (m_data t = [] ∧ m_parent_index t = []) →
     getParentIndex t i = Abort msg_structure).
Proof.
  unfold getParentIndex. split; [|split].
  - intros Hv p. pose proof Hv as [E H0].
    rewrite (valid_isValid _ Hv), bind_Done. cbn [assert]. rewrite bind_Done.
    destruct (Nat.ltb_spec i (length (m_parent_index t))) as [Hlt|Hge];
      cbn [assert mbind outcome_bind].
    + destruct i as [|i]; cbn [Nat.ltb Nat.leb].
      * rewrite H0. split; intros [= ->]; reflexivity.
      * unfold vec_at. destruct (m_parent_index t !! S i) as [q|] eqn:Hq.
        -- split; intros [= ->]; reflexivity.
        -- apply lookup_ge_None in Hq. lia.
    + split; [discriminate|]. intros Hp. apply lookup_lt_Some in Hp. lia.
  - intros Hv Hge. pose proof Hv as [E _]. unfold size in Hge.
    rewrite (valid_isValid _ Hv), bind_Done. cbn [assert]. rewrite bind_Done.
    destruct (Nat.ltb_spec i (length (m_parent_index t))); [lia|reflexivity].
  - intros Hnv Hne. now rewrite (invalid_isValid _ Hnv Hne).
Qed.

End FlatTree_queries.

(** * Further properties of insertion *)

Lemma reaches_root_mono (ps : list nat) (n : nat) : ∀ m i,
  reaches_root n ps i = true → n ≤ m → reaches_root m ps i = true.
Proof.
  induction n as [|n IH]; intros m i H Hle.
  - destruct i; [now destruct m|discriminate H].
  - destruct i as [|i]; [now destruct m|].
    destruct m as [|m]; [lia|]. cbn [reaches_root] in H |- *.
    destruct (ps !! S i) as [p|]; [|discriminate]. apply IH; [assumption|lia].
Qed.

Lemma reaches_root_app (ps ext : list nat) (n : nat) : ∀ i,
  reaches_root n ps i = true → reaches_root n (ps ++ ext) i = true.
Proof.
  induction n as [|n IH]; intros i H.
  - destruct i; [reflexivity|discriminate H].
  - destruct i as [|i]; [reflexivity|]. cbn [reaches_root] in H |- *.
    destruct (ps !! S i) as [p|] eqn:Hp; [|discriminate].
    rewrite (lookup_app_l_Some _ _ _ _ Hp). now apply IH.
Qed.

Lemma reaches_root_step (ps : list nat) (n i p : nat) :
  i ≠ 0 → ps !! i = Some p → reaches_root (S n) ps i = reaches_root n ps p.
Proof. intros Hi Hp. destruct i; [contradiction|]. cbn [reaches_root]. now rewrite Hp. Qed.

Section FlatTree_insertion.
Context {T : Type}.
Implicit Types (t : FlatTree T) (out : list nat).

Lemma forest_nodes t :
  forest t = true ↔ ∀ i, i < size t → reaches_root (size t) (m_parent_index t) i = true.
Proof.
  unfold forest. rewrite forallb_forall. split.
  - intros H i Hi. apply H, in_seq. lia.
  - intros H i Hi. apply in_seq in Hi. apply H. lia.
Qed.

Lemma insert_Done t (p : nat) (x : T) :
  valid t → p < size t →
  insert p x t = Done (true, mkFlatTree (m_data t ++ [x]) (m_parent_index t ++ [p])).
Proof.
  intros Hv Hlt. pose proof Hv as [E _]. unfold size in Hlt. unfold insert.
  destruct (Nat.leb_spec (length (m_parent_index t)) p); [lia|].
  now rewrite (valid_isValid _ Hv).
Qed.

Lemma insert_false t (p : nat) (x : T) :
  size t ≤ p ∨ ¬ valid t → insert p x t = Done (false, t).
Proof.
  intros Hfail. unfold insert.
  destruct (Nat.leb_spec (length (m_parent_index t)) p) as [|Hlt]; [reflexivity|].
  assert (Hnv : ¬ valid t).
  { destruct Hfail as [Hge|Hnv]; [|exact Hnv].
    intros [E _]. unfold size in Hge. lia. }
  rewrite (invalid_isValid _ Hnv); [reflexivity|].
  intros [_ Hp]. rewrite Hp in Hlt. simpl in Hlt. lia.
Qed.

Lemma insert_many_false t (p : nat) (xs : list T) :
  size t ≤ p ∨ ¬ valid t → insert_many p xs t = Done (false, t).
Proof.
  intros Hfail. unfold insert_many.
  destruct (Nat.leb_spec (length (m_parent_index t)) p) as [|Hlt]; [reflexivity|].
  assert (Hnv : ¬ valid t).
  { destruct Hfail as [Hge|Hnv]; [|exact Hnv].
    intros [E _]. unfold size in Hge. lia. }
  rewrite (invalid_isValid _ Hnv); [reflexivity|].
  intros [_ Hp]. rewrite Hp in Hlt. simpl in Hlt. lia.
Qed.

Lemma insert_many_Done t (p : nat) (xs : list T) :
  valid t → p < size t →
  insert_many p xs t =
    Done (true, mkFlatTree (m_data t ++ xs)
                           (m_parent_index t ++ replicate (length xs) p)).
Proof.
  intros Hv Hlt. pose proof Hv as [E _]. unfold size in Hlt. unfold insert_many.
  destruct (Nat.leb_spec (length (m_parent_index t)) p); [lia|].
  rewrite (valid_isValid _ Hv), bind_Done. cbn [negb]. do 2 f_equal.
  clear. revert t. induction xs as [|x xs IH]; intros t; cbn [foldl].
  - destruct t. cbn. now rewrite !app_nil_r.
  - rewrite IH. cbn [m_data m_parent_index length replicate].
    unfold emplace_back. now rewrite <- !app_assoc.
Qed.

(** [insert] of several values: it fails exactly as the single [insert]
    does; when it succeeds it appends all the values in their order, each
    with the given parent, and the result is the tree that inserting the
    values one at a time produces. *)
Theorem insert_many_spec t (p : nat) (xs : list T) :
  (size t ≤ p ∨ ¬ valid t → insert_many p xs t = Done (false, t)) ∧
  (valid t → p < size t →
     let t' := mkFlatTree (m_data t ++ xs)
                          (m_parent_index t ++ replicate (length xs) p) in
     insert_many p xs t = Done (true, t') ∧
     for_each (λ x t1, r ← insert p x t1; Done r.2) xs t = Done t' ∧
     valid t' ∧ size t' = size t + length xs).
Proof.
  split; [apply insert_many_false|].
  intros Hv Hlt t'. subst t'. split; [|split; [|split]].
    + now apply insert_many_Done.
    + revert t Hv Hlt. induction xs as [|x xs IH]; intros t Hv Hlt; cbn [for_each].
      * destruct t. cbn. now rewrite !app_nil_r.
      * rewrite (insert_Done _ _ _ Hv Hlt), !bind_Done. cbn [snd].
        rewrite IH.
        -- cbn [m_data m_parent_index length replicate].
           now rewrite <- !app_assoc.
        -- now apply valid_emplace_back.
        -- unfold size in *. cbn [m_data]. rewrite length_app. lia.
    + destruct Hv as [E H0]. split; cbn [m_data m_parent_index].
      * rewrite !length_app, length_replicate. lia.
      * now apply lookup_app_l_Some.
    + unfold size. cbn [m_data]. now rewrite length_app.
Qed.

(** After a successful [insert(p, x)] the count of [p] has grown by one
    and every other count is as before; the new index, [size()] before the
    call, is the last child of [p]; [p] is no leaf; and the new node is a
    leaf provided no parent entry pointed past the end of the tree. *)
Theorem insert_updates_queries t (p : nat) (x : T) :
  valid t → p < size t →
  ∃ t', insert p x t = Done (true, t') ∧
    (∀ q, getNumOfDescendants t' q =
            getNumOfDescendants t q + (if decide (q = p) then 1 else 0)) ∧
    children t' p = children t p ++ [size t] ∧
    isLeaf t' p = Done false ∧
    (parents_in_range t → isLeaf t' (size t) = Done true).
Proof.
  intros Hv Hlt. eexists. split; [now apply insert_Done|].
  pose proof Hv as [E _]. unfold size in *.
  assert (Hcount : ∀ q, getNumOfDescendants
             (mkFlatTree (m_data t ++ [x]) (m_parent_index t ++ [p])) q =
           getNumOfDescendants t q + (if decide (q = p) then 1 else 0)).
  { intros q. rewrite !getNumOfDescendants_count. cbn [m_parent_index].
    rewrite std_count_app. cbn [std_count]. f_equal.
    destruct (Nat.eqb_spec p q) as [->|Hne].
    - now rewrite decide_True.
    - rewrite decide_False by congruence. reflexivity. }
  split; [exact Hcount|]. split; [|split].
  - unfold children. cbn [m_parent_index].
    rewrite length_app. cbn [length]. rewrite seq_app, filter_app. cbn [seq Nat.add].
    rewrite filter_cons_True, filter_nil.
    2:{ now rewrite list_lookup_middle. }
    rewrite E. f_equal. apply filter_ext_elem. intros k Hk.
    apply elem_of_seq in Hk. rewrite lookup_app_l by lia. reflexivity.
  - unfold isLeaf. cbn [m_parent_index]. rewrite length_app. cbn [length].
    destruct (Nat.ltb_spec p (length (m_parent_index t) + 1)); [|lia].
    cbn [assert]. rewrite bind_Done, Hcount, decide_True by reflexivity.
    now rewrite Nat.add_1_r.
  - intros Hin. unfold isLeaf. cbn [m_parent_index]. rewrite length_app. cbn [length].
    destruct (Nat.ltb_spec (length (m_data t)) (length (m_parent_index t) + 1)); [|lia].
    cbn [assert]. rewrite bind_Done, Hcount, decide_False by lia.
    rewrite getNumOfDescendants_count, Nat.add_0_r.
    replace (std_count (m_parent_index t) (length (m_data t))) with 0; [reflexivity|].
    symmetry. apply std_count_zero_iff. intros Hmem.
    unfold parents_in_range, size in Hin. rewrite Forall_forall in Hin.
    specialize (Hin _ Hmem). lia.
Qed.

(** [insert] under an existing parent keeps the forest: when every node
    of a valid tree reaches the root through its parent entries, so does
    every node after the call, the new one included. *)
Theorem insert_preserves_forest t (p : nat) (x : T) :
  valid t → forest t = true → p < size t →
  ∃ t', insert p x t = Done (true, t') ∧ valid t' ∧ forest t' = true.
Proof.
  intros Hv Hf Hlt. eexists. split; [now apply insert_Done|].
  split; [now apply valid_emplace_back|].
  pose proof Hv as [E H0]. rewrite forest_nodes in Hf. apply forest_nodes.
  unfold size in *. cbn [m_data m_parent_index]. rewrite length_app. cbn [length].
  intros i Hi. rewrite Nat.add_1_r in *.
  destruct (decide (i < length (m_data t))) as [Hold|Hnew].
  - apply reaches_root_app. eapply reaches_root_mono; [apply Hf, Hold|lia].
  - assert (i = length (m_data t)) as -> by lia.
    rewrite (reaches_root_step _ _ _ p) by (try lia; now apply list_lookup_middle).
    apply reaches_root_app. eapply reaches_root_mono; [apply Hf, Hlt|lia].
Qed.

(** [tree << {p, x}] returns the tree with the node appended when [p] is
    an index of a valid tree, and stops on its assertion in every other
    case; the same holds for the form that takes several values. *)
Theorem operator_shl_spec t (p : nat) (x : T) (xs : list T) :
  (valid t → p < size t →
     operator_shl (p, x) t =
       Done (mkFlatTree (m_data t ++ [x]) (m_parent_index t ++ [p])) ∧
     operator_shl_many (p, xs) t =
       Done (mkFlatTree (m_data t ++ xs)
                        (m_parent_index t ++ replicate (length xs) p))) ∧
  (size t ≤ p ∨ ¬ valid t →
     operator_shl (p, x) t = Abort msg_insert ∧
     operator_shl_many (p, xs) t = Abort msg_insert).
Proof.
  split.
  - intros Hv Hlt. unfold operator_shl, operator_shl_many. cbn [fst snd].
    rewrite (insert_Done _ _ _ Hv Hlt), (insert_many_Done _ _ _ Hv Hlt).
    split; reflexivity.
  - intros Hfail. unfold operator_shl, operator_shl_many. cbn [fst snd].
    rewrite (insert_false _ _ _ Hfail), (insert_many_false _ _ _ Hfail).
    split; reflexivity.
Qed.

End FlatTree_insertion.

(** * Further properties of the modifiers *)

Lemma pop_back_Done {A : Type} (v : list A) :
  0 < length v → pop_back v = Done (take (length v - 1) v).
Proof. destruct v; simpl; [lia|reflexivity]. Qed.

(* overwrite slot [i] with the last element, then drop the last slot: the
   elements that remain are the old ones without the one that was at [i] *)
Lemma swap_pop_Permutation {A : Type} (d : list A) (i : nat) (x l : A) :
  d !! i = Some x → d !! (length d - 1) = Some l →
  d ≡ₚ x :: take (length d - 1) (<[i := l]> d).
Proof.
  intros Hx Hl.
  destruct d as [|y d0] using rev_ind; [discriminate|]. clear IHd0.
  rewrite length_app in *. cbn [length] in *.
  replace (length d0 + 1 - 1) with (length d0) in * by lia.
  rewrite list_lookup_middle in Hl by reflexivity. injection Hl as ->.
  destruct (decide (i < length d0)) as [Hlt|Hge].
  - rewrite lookup_app_l in Hx by assumption.
    rewrite insert_app_l by assumption.
    rewrite take_app_length' by (now rewrite length_insert).
    rewrite insert_take_drop by assumption.
    rewrite <- (take_drop_middle d0 i x Hx) at 1.
    generalize (take i d0) (drop (S i) d0). intros a b.
    rewrite <- app_assoc. cbn [app].
    rewrite <- !Permutation_middle. now rewrite app_nil_r.
  - assert (i = length d0) as ->.
    { apply lookup_lt_Some in Hx. rewrite length_app in Hx. cbn in Hx. lia. }
    rewrite list_lookup_middle in Hx by reflexivity. injection Hx as ->.
    rewrite list_insert_id by (now apply list_lookup_middle).
    rewrite take_app_length. symmetry. apply Permutation_cons_append.
Qed.

Section FlatTree_modifiers.
Context {T : Type}.
Implicit Types (t : FlatTree T) (out : list nat).

(** [clear] needs a stored value to keep: on a tree without values it
    reads outside the vector.  On any other tree, valid or not, it returns
    the single-root tree that holds the first value; that tree is valid,
    [empty()] is true of it, and clearing it again changes nothing. *)
Theorem clear_spec t :
  (m_data t = [] → clear t = Undefined) ∧
  (∀ r, m_data t !! 0 = Some r →
     clear t = Done (FlatTree_root r) ∧
     valid (FlatTree_root r) ∧ forest (FlatTree_root r) = true ∧
     size (FlatTree_root r) = 1 ∧ empty (FlatTree_root r) = true ∧
     clear (FlatTree_root r) = Done (FlatTree_root r)).
Proof.
  split.
  - intros E. unfold clear. now rewrite E.
  - intros r Hr. unfold clear. rewrite (vec_at_Done _ _ _ Hr).
    repeat split.
Qed.

(** [resize(n)] leaves both vectors with [n] elements.  The slots below
    the old size keep their content; the slots added hold a default value
    and the parent index 0.  A valid tree stays valid when [n >= 1], and a
    valid forest stays a forest when it is not truncated. *)
Theorem resize_spec `{!Inhabited T} t (n : nat) :
  size (resize n t) = n ∧ length (m_parent_index (resize n t)) = n ∧
  (∀ i, i < n →
     (i < length (m_data t) → m_data (resize n t) !! i = m_data t !! i) ∧
     (length (m_data t) ≤ i → m_data (resize n t) !! i = Some inhabitant) ∧
     (i < length (m_parent_index t) →
        m_parent_index (resize n t) !! i = m_parent_index t !! i) ∧
     (length (m_parent_index t) ≤ i → m_parent_index (resize n t) !! i = Some 0)) ∧
  (valid t → 1 ≤ n → valid (resize n t)) ∧
  (valid t → size t ≤ n → forest t = true → forest (resize n t) = true).
Proof.
  assert (Hlook : ∀ (A : Type) (d : A) (v : list A) i, i < n →
            (i < length v → vec_resize d v n !! i = v !! i) ∧
            (length v ≤ i → vec_resize d v n !! i = Some d)).
  { intros A d v i Hi. unfold vec_resize. split; intros Hv.
    - rewrite lookup_app_l by (rewrite length_take; lia).
      now apply lookup_take_lt.
    - rewrite lookup_app_r by (rewrite length_take; lia).
      apply lookup_replicate_2. rewrite length_take. lia. }
  split; [apply length_vec_resize|]. split; [apply length_vec_resize|].
  split; [|split].
  - intros i Hi. unfold resize. cbn [m_data m_parent_index].
    destruct (Hlook T inhabitant (m_data t) i Hi) as [? ?].
    destruct (Hlook nat 0 (m_parent_index t) i Hi) as [? ?]. auto.
  - apply resize_valid.
  - intros Hv Hn Hf. pose proof Hv as [E H0].
    rewrite forest_nodes in Hf. apply forest_nodes.
    unfold size in *. unfold resize. cbn [m_data m_parent_index].
    rewrite length_vec_resize. unfold vec_resize.
    rewrite take_ge by lia. intros i Hi.
    destruct (decide (i < length (m_data t))) as [Hold|Hnew].
    + apply reaches_root_app. eapply reaches_root_mono; [apply Hf, Hold|lia].
    + destruct n as [|n']; [lia|].
      rewrite (reaches_root_step _ _ _ 0); [now destruct n'| |].
      * apply lookup_lt_Some in H0. lia.
      * rewrite lookup_app_r by lia. apply lookup_replicate_2. lia.
Qed.

Lemma remove_node_Done t (i : nat) :
  valid t → 0 < i < size t →
  ∃ x p, m_data t !! (size t - 1) = Some x ∧
         m_parent_index t !! (size t - 1) = Some p ∧
         remove_node i t =
           Done (mkFlatTree (take (size t - 1) (<[i := x]> (m_data t)))
                            (take (size t - 1) (<[i := p]> (m_parent_index t)))).
Proof.
  intros Hv Hi. pose proof Hv as [E H0]. unfold size in *.
  destruct (lookup_lt_is_Some_2 (m_data t) (length (m_data t) - 1)) as [x Hx]; [lia|].
  destruct (lookup_lt_is_Some_2 (m_parent_index t) (length (m_data t) - 1))
    as [p Hp]; [lia|].
  exists x, p. split; [exact Hx|]. split; [exact Hp|].
  unfold remove_node. destruct (Nat.eqb_spec i 0); [lia|].
  rewrite (vec_at_Done _ _ _ Hx), bind_Done.
  unfold vec_set. destruct (Nat.ltb_spec i (length (m_data t))); [|lia].
  rewrite bind_Done, pop_back_Done, bind_Done by (rewrite length_insert; lia).
  rewrite <- E. rewrite (vec_at_Done _ _ _ Hp). rewrite bind_Done.
  destruct (Nat.ltb_spec i (length (m_data t))); [|lia].
  rewrite bind_Done, pop_back_Done, bind_Done by (rewrite length_insert; lia).
  rewrite !length_insert, <- E.
  rewrite valid_isValid; [reflexivity|].
  split; cbn [m_data m_parent_index].
  - rewrite !length_take, !length_insert. lia.
  - rewrite lookup_take_lt by lia. rewrite list_lookup_insert_ne by lia. exact H0.
Qed.

Lemma remove_node_out_of_range t (i : nat) :
  sizes_agree t → i ≠ 0 → size t ≤ i → remove_node i t = Undefined.
Proof.
  intros E Hi Hge. unfold sizes_agree, size in *. unfold remove_node.
  destruct (Nat.eqb_spec i 0); [contradiction|].
  unfold vec_at. destruct (m_data t !! (length (m_data t) - 1)); [|reflexivity].
  rewrite bind_Done. unfold vec_set.
  now destruct (Nat.ltb_spec i (length (m_data t))); [lia|].
Qed.

(** [remove_node]: index 0 is left alone; an index at or beyond the end
    is written outside the vectors; and for a node [i] of a valid tree
    other than the root the call returns a valid tree that is one node
    shorter, in which slot [i] holds what the last slot held and every
    other remaining slot is as before. *)
Theorem remove_node_spec t (i : nat) :
  remove_node 0 t = Done t ∧
  (sizes_agree t → i ≠ 0 → size t ≤ i → remove_node i t = Undefined) ∧
  (valid t → 0 < i < size t →
     ∃ t', remove_node i t = Done t' ∧ valid t' ∧ size t' = size t - 1 ∧
       (∀ j, j < size t - 1 → j ≠ i →
          m_data t' !! j = m_data t !! j ∧
          m_parent_index t' !! j = m_parent_index t !! j) ∧
       (i < size t - 1 →
          m_data t' !! i = m_data t !! (size t - 1) ∧
          m_parent_index t' !! i = m_parent_index t !! (size t - 1))).
Proof.
  split; [reflexivity|]. split; [apply remove_node_out_of_range|].
  - intros Hv Hi.
    destruct (remove_node_Done t i Hv Hi) as (x & p & Hx & Hp & Hrun).
    pose proof Hv as [E H0]. unfold size in *.
    eexists. split; [exact Hrun|]. cbn [m_data m_parent_index].
    split; [|split; [|split]].
    + split; cbn [m_data m_parent_index].
      * rewrite !length_take, !length_insert. lia.
      * rewrite lookup_take_lt by lia. rewrite list_lookup_insert_ne by lia. exact H0.
    + rewrite length_take, length_insert. lia.
    + intros j Hj Hne. rewrite !lookup_take_lt by lia.
      rewrite !list_lookup_insert_ne by congruence. auto.
    + intros Hlt. rewrite !lookup_take_lt by lia.
      rewrite !list_lookup_insert_eq by lia. auto.
Qed.

(** [remove_node] drops exactly one value, the one stored at the index it
    is given: the values before the call are those after it together with
    that one, up to their order. *)
Theorem remove_node_values t (i : nat) (x : T) :
  valid t → 0 < i < size t → m_data t !! i = Some x →
  ∃ t', remove_node i t = Done t' ∧ m_data t ≡ₚ x :: m_data t'.
Proof.
  intros Hv Hi Hx.
  destruct (remove_node_Done t i Hv Hi) as (l & p & Hl & _ & Hrun).
  eexists. split; [exact Hrun|]. cbn [m_data]. unfold size in *.
  now apply swap_pop_Permutation.
Qed.

(** [operator[]] on a valid tree: a value assigned at an index below
    [size()] is the value read back there, the values at the other indices
    and all parent entries are untouched; at an index at or beyond
    [size()] both forms stop on the assertion. *)
Theorem operator_subscript_round_trip t (i : nat) (x : T) :
  valid t →
  (i < size t →
     ∃ t', operator_subscript_assign t i x = Done t' ∧
       operator_subscript t' i = Done x ∧
       (∀ j, j ≠ i → operator_subscript t' j = operator_subscript t j) ∧
       m_parent_index t' = m_parent_index t ∧ size t' = size t) ∧
  (size t ≤ i →
     operator_subscript t i = Abort msg_none ∧
     operator_subscript_assign t i x = Abort msg_none).
Proof.
  intros Hv. pose proof Hv as [E H0]. unfold size in *. split.
  - intros Hi.
    assert (Hv' : valid (mkFlatTree (<[i := x]> (m_data t)) (m_parent_index t))).
    { split; cbn [m_data m_parent_index]; [now rewrite length_insert|exact H0]. }
    eexists. split.
    { unfold operator_subscript_assign, size.
      rewrite (valid_isValid _ Hv), bind_Done.
      destruct (Nat.ltb_spec i (length (m_data t))); [|lia].
      cbn [andb assert]. rewrite bind_Done. unfold vec_set.
      destruct (Nat.ltb_spec i (length (m_data t))); [|lia]. reflexivity. }
    split; [|split; [|split]].
    + unfold operator_subscript, size.
      rewrite (valid_isValid _ Hv'), bind_Done. cbn [m_data].
      rewrite length_insert.
      destruct (Nat.ltb_spec i (length (m_data t))); [|lia].
      cbn [andb assert]. rewrite bind_Done.
      apply vec_at_Done, list_lookup_insert_eq. lia.
    + intros j Hne. unfold operator_subscript, size.
      rewrite (valid_isValid _ Hv'), (valid_isValid _ Hv). cbn [m_data].
      rewrite length_insert. unfold vec_at.
      now rewrite list_lookup_insert_ne by congruence.
    + reflexivity.
    + cbn [m_data]. apply length_insert.
  - intros Hge. unfold operator_subscript, operator_subscript_assign, size.
    rewrite (valid_isValid _ Hv), !bind_Done.
    destruct (Nat.ltb_spec i (length (m_data t))); [lia|]. split; reflexivity.
Qed.

End FlatTree_modifiers.

(** * Further properties of the descendant collection *)

Section FlatTree_descendants.
Context {T : Type}.
Implicit Types (t : FlatTree T) (out : list nat).

Lemma children_not_root t p k : valid t → p ≠ 0 → k ∈ children t p → k ≠ 0.
Proof.
  intros [_ H0] Hp Hk ->. apply elem_of_children in Hk. congruence.
Qed.

Lemma getAllDescendants_nonroot_step t fuel p out :
  valid t → p ≠ 0 →
  getAllDescendants (S fuel) t p out =
    if bool_decide (children t p ≠ [])
    then out2 ← collect_loop (getAllDescendants fuel t)
                  (out ++ children t p) (out ++ children t p);
         Done (true, out2)
    else Done (false, out).
Proof.
  intros Hv Hp. cbn [getAllDescendants].
  destruct (Nat.eqb_spec p 0) as [?|_]; [contradiction|]. cbn [negb].
  unfold getAllDescendantsNotFromRoot.
  rewrite (getDescendants_nonroot _ _ _ Hv Hp), bind_Done.
  destruct (children t p); [now rewrite app_nil_r|reflexivity].
Qed.

(* on a valid tree the collection either runs out of budget or returns
   its output vector extended *)
Lemma getAllDescendants_outcomes t (fuel : nat) : valid t → ∀ p out,
  getAllDescendants fuel t p out = Timeout ∨
  ∃ b ext, getAllDescendants fuel t p out = Done (b, out ++ ext).
Proof.
  intros Hv. induction fuel as [|fuel IH]; intros p out; [now left|].
  destruct (decide (p = 0)) as [->|Hp].
  { right. rewrite getAllDescendants_root. eauto. }
  rewrite (getAllDescendants_nonroot_step _ _ _ _ Hv Hp).
  destruct (bool_decide (children t p ≠ [])).
  2:{ right. exists false, []. now rewrite app_nil_r. }
  assert (Hloop : ∀ l acc,
            collect_loop (getAllDescendants fuel t) l acc = Timeout ∨
            ∃ ext, collect_loop (getAllDescendants fuel t) l acc = Done (acc ++ ext)).
  { induction l as [|a l IHl]; intros acc; unfold collect_loop; cbn [for_each].
    - right. exists []. now rewrite app_nil_r.
    - destruct (IH a acc) as [->|(b & ext & ->)]; [now left|].
      rewrite !bind_Done. cbn [snd].
      destruct (IHl (acc ++ ext)) as [Ht|[ext' Hd]]; unfold collect_loop in *.
      + now left.
      + right. exists (ext ++ ext'). now rewrite app_assoc. }
  destruct (Hloop (out ++ children t p) (out ++ children t p)) as [->|[ext ->]];
    [now left|].
  right. exists true, (children t p ++ ext). now rewrite app_assoc.
Qed.

(* a collected node that has a child is found again by the call made for
   it, which therefore never comes back *)
Lemma getAllDescendants_revisit t (fuel : nat) : valid t → ∀ k out,
  k ≠ 0 → children t k ≠ [] → k ∈ out →
  getAllDescendants fuel t k out = Timeout.
Proof.
  intros Hv. induction fuel as [|fuel IH]; intros k out Hk Hkids Hin; [reflexivity|].
  rewrite (getAllDescendants_nonroot_step _ _ _ _ Hv Hk).
  rewrite bool_decide_eq_true_2 by assumption.
  assert (Hloop : ∀ l acc, k ∈ l → k ∈ acc →
            collect_loop (getAllDescendants fuel t) l acc = Timeout).
  { induction l as [|a l IHl]; intros acc Hl Hacc; [inversion Hl|].
    unfold collect_loop. cbn [for_each].
    destruct (decide (a = k)) as [->|Hne].
    - now rewrite (IH k acc Hk Hkids Hacc).
    - apply elem_of_cons in Hl as [?|Hl]; [congruence|].
      destruct (getAllDescendants_outcomes t fuel Hv a acc) as [->|(b & ext & ->)];
        [reflexivity|].
      rewrite !bind_Done. cbn [snd]. apply IHl; [assumption|].
      apply elem_of_app. now left. }
  rewrite Hloop; [reflexivity| |]; apply elem_of_app; now left.
Qed.

Lemma collect_loop_leaves t (fuel : nat) (l acc : list nat) :
  valid t → Forall (λ k, k ≠ 0 ∧ children t k = []) l →
  collect_loop (getAllDescendants (S fuel) t) l acc = Done acc.
Proof.
  intros Hv Hl. revert acc. induction Hl as [|k l [Hk Hkids] _ IH]; intros acc;
    unfold collect_loop; cbn [for_each]; [reflexivity|].
  rewrite (getAllDescendants_nonroot_step _ _ _ _ Hv Hk), Hkids.
  rewrite bool_decide_eq_false_2 by auto. rewrite !bind_Done. apply IH.
Qed.

Lemma getAllDescendants_shallow_Done t (fuel p : nat) out :
  valid t → p ≠ 0 → children t p ≠ [] →
  Forall (λ k, children t k = []) (children t p) →
  Forall (λ k, k ≠ 0 ∧ children t k = []) out →
  getAllDescendants (S (S fuel)) t p out = Done (true, out ++ children t p).
Proof.
  intros Hv Hp Hkids Hleaves Hout.
  rewrite (getAllDescendants_nonroot_step _ _ _ _ Hv Hp).
  rewrite bool_decide_eq_true_2 by assumption.
  rewrite collect_loop_leaves; [reflexivity|assumption|].
  apply Forall_app. split; [assumption|].
  rewrite Forall_forall in Hleaves |- *. intros k Hk. split; [|now apply Hleaves].
  eapply children_not_root; eassumption.
Qed.

Lemma getAllDescendants_deep_Timeout t (p : nat) out :
  valid t → p ≠ 0 → children t p ≠ [] →
  Exists (λ k, k ≠ 0 ∧ children t k ≠ []) (out ++ children t p) →
  ∀ fuel, getAllDescendants fuel t p out = Timeout.
Proof.
  intros Hv Hp Hkids Hdeep fuel. destruct fuel as [|fuel]; [reflexivity|].
  rewrite (getAllDescendants_nonroot_step _ _ _ _ Hv Hp).
  rewrite bool_decide_eq_true_2 by assumption.
  apply Exists_exists in Hdeep as (k & Hk & Hk0 & Hkk).
  enough (Hloop : ∀ l acc, k ∈ l → k ∈ acc →
            collect_loop (getAllDescendants fuel t) l acc = Timeout).
  { now rewrite Hloop. }
  induction l as [|a l IHl]; intros acc Hl Hacc; [inversion Hl|].
  unfold collect_loop. cbn [for_each].
  destruct (decide (a = k)) as [->|Hne].
  - now rewrite (getAllDescendants_revisit t fuel Hv k acc Hk0 Hkk Hacc).
  - apply elem_of_cons in Hl as [?|Hl]; [congruence|].
    destruct (getAllDescendants_outcomes t fuel Hv a acc) as [->|(b & ext & ->)];
      [reflexivity|].
    rewrite !bind_Done. cbn [snd]. apply IHl; [assumption|].
    apply elem_of_app. now left.
Qed.

(** [getAllDescendants] for a node other than the root whose children are
    all leaves: the call returns true and appends exactly the children, in
    ascending order (the output vector holding nothing but leaves other
    than the root beforehand). *)
Theorem getAllDescendants_shallow t (fuel p : nat) out :
  valid t → p ≠ 0 → children t p ≠ [] →
  Forall (λ k, children t k = []) (children t p) →
  Forall (λ k, k ≠ 0 ∧ children t k = []) out →
  getAllDescendants (S (S fuel)) t p out = Done (true, out ++ children t p).
Proof. apply getAllDescendants_shallow_Done. Qed.

(** [getAllDescendants] for a node other than the root that has a
    grandchild never returns: the nested call made for the child that has
    a child of its own finds that child in the output vector again and
    calls itself without end, so every recursion budget is exhausted. *)
Theorem getAllDescendants_deep t (p : nat) :
  valid t → p ≠ 0 →
  Exists (λ k, children t k ≠ []) (children t p) →
  ∀ fuel, getAllDescendants fuel t p [] = Timeout.
Proof.
  intros Hv Hp Hdeep fuel.
  apply getAllDescendants_deep_Timeout; try assumption.
  - intros E. rewrite E in Hdeep. inversion Hdeep.
  - cbn [app]. apply Exists_exists in Hdeep as (k & Hk & Hkk).
    apply Exists_exists. exists k. split; [assumption|]. split; [|assumption].
    eapply children_not_root; eassumption.
Qed.

End FlatTree_descendants.

(** * Further properties of removal and traversal *)

(* the visiting loop of [Traverse] alters the visited slots in turn *)
Lemma visit_loop {A : Type} (f : A → A) (ks : list nat) : ∀ d : list A,
  Forall (λ k, k < length d) ks →
  for_each (λ elm d, x ← vec_at d elm; vec_set d elm (f x)) ks d =
    Done (foldl (λ d k, alter f k d) d ks).
Proof.
  induction ks as [|k ks IH]; intros d Hks; cbn [for_each foldl]; [reflexivity|].
  apply Forall_cons in Hks as [Hk Hks].
  destruct (lookup_lt_is_Some_2 d k Hk) as [x Hx].
  rewrite (vec_at_Done _ _ _ Hx), bind_Done. unfold vec_set.
  destruct (Nat.ltb_spec k (length d)); [|lia]. rewrite bind_Done.
  replace (<[k := f x]> d) with (alter f k d).
  - apply IH. eapply Forall_impl; [exact Hks|]. intros j Hj.
    now rewrite length_alter.
  - apply list_eq. intros j. destruct (decide (k = j)) as [<-|Hne].
    + rewrite list_lookup_alter_eq, list_lookup_insert_eq, Hx by assumption.
      reflexivity.
    + now rewrite list_lookup_alter_ne, list_lookup_insert_ne.
Qed.

Lemma visited_lookup {A : Type} (f : A → A) (ks : list nat) : ∀ (d : list A) (j : nat),
  NoDup ks →
  foldl (λ d k, alter f k d) d ks !! j =
    if decide (j ∈ ks) then f <$> d !! j else d !! j.
Proof.
  induction ks as [|k ks IH]; intros d j Hnd; cbn [foldl].
  - rewrite decide_False; [reflexivity|]. intros H. inversion H.
  - apply NoDup_cons in Hnd as [Hk Hnd]. rewrite IH by assumption.
    destruct (decide (j = k)) as [->|Hne].
    + rewrite (decide_False (P := k ∈ ks)) by assumption.
      rewrite decide_True by (now left). apply list_lookup_alter_eq.
    + rewrite list_lookup_alter_ne by congruence.
      destruct (decide (j ∈ ks)) as [Hin|Hnin].
      * rewrite decide_True by (now right). reflexivity.
      * rewrite decide_False; [reflexivity|].
        intros Hc. apply elem_of_cons in Hc as [?|?]; contradiction.
Qed.

Section FlatTree_removal.
Context {T : Type}.
Implicit Types (t : FlatTree T) (out : list nat).

Lemma remove_node_size t (i : nat) t' :
  i ≠ 0 → remove_node i t = Done t' → S (size t') = size t.
Proof.
  intros Hi. unfold remove_node. destruct (Nat.eqb_spec i 0); [contradiction|].
  intros H. bind_inv H.
  repeat match goal with
  | Hs : vec_set _ _ _ = Done _ |- _ =>
      unfold vec_set in Hs;
      match type of Hs with (if ?c then _ else _) = _ => destruct c end;
      [injection Hs as <-|discriminate Hs]
  end.
  match goal with Hp : pop_back (<[_ := _]> (m_data t)) = Done ?l |- _ =>
    assert (Hl : S (length l) = length (m_data t)) end.
  { match goal with Hp : pop_back (<[i := ?a]> (m_data t)) = Done _ |- _ =>
      pose proof (length_insert (m_data t) i a) as Hlen;
      destruct (<[i := a]> (m_data t)) as [|y d1]; [discriminate Hp|];
      injection Hp as <- end.
    rewrite length_take. cbn [length] in *. lia. }
  match goal with Hv : isValid _ = Done ?b |- _ => destruct b end;
    cbn [assert mbind outcome_bind] in H; [|discriminate].
  injection H as <-. exact Hl.
Qed.

Lemma remove_nodes_size (kids : list nat) : ∀ t t',
  Forall (λ k, k ≠ 0) kids → for_each remove_node kids t = Done t' →
  size t' + length kids = size t.
Proof.
  induction kids as [|k kids IH]; intros t t' Hk H; cbn [for_each] in H.
  - injection H as <-. cbn. lia.
  - apply Forall_cons in Hk as [Hk Hkids]. bind_inv H.
    match goal with Hr : remove_node k t = Done ?t1 |- _ =>
      apply (remove_node_size _ _ _ Hk) in Hr; specialize (IH _ _ Hkids H) end.
    cbn [length]. lia.
Qed.

(** When [remove(i)] returns true for a node other than the root of a
    valid tree, every child of [i] was a leaf; the result is a valid tree
    shorter by the number of those children, so node [i] itself is not
    among the nodes removed. *)
Theorem remove_true_shape t (i fuel : nat) t' :
  valid t → i ≠ 0 → remove fuel i t = Done (true, t') →
  children t i ≠ [] ∧
  Forall (λ k, children t k = []) (children t i) ∧
  valid t' ∧ size t' + length (children t i) = size t.
Proof.
  intros Hv Hi. unfold remove.
  destruct (length (m_parent_index t) <=? i); [discriminate|].
  rewrite (valid_isValid _ Hv), bind_Done. cbn [negb].
  destruct fuel as [|fuel]; [discriminate|].
  destruct (decide (children t i = [])) as [E|Hkids].
  { rewrite (getAllDescendants_nonroot_step _ _ _ _ Hv Hi), E. discriminate. }
  destruct (decide (Forall (λ k, children t k = []) (children t i))) as [Hl|Hd].
  - destruct fuel as [|fuel].
    { rewrite (getAllDescendants_nonroot_step _ _ _ _ Hv Hi).
      rewrite bool_decide_eq_true_2 by assumption. cbn [app].
      destruct (children t i); [contradiction|]. discriminate. }
    rewrite getAllDescendants_shallow_Done by (try assumption; constructor).
    rewrite bind_Done. cbn [negb app]. intros H. bind_inv H. injection H as <-.
    split; [assumption|]. split; [assumption|]. split.
    + eapply remove_nodes_valid; eassumption.
    + eapply remove_nodes_size; [|eassumption].
      apply Forall_forall. intros k Hk. eapply children_not_root; eassumption.
  - rewrite getAllDescendants_deep_Timeout; [discriminate|assumption..|].
    cbn [app]. apply not_Forall_Exists in Hd; [|apply _].
    apply Exists_exists in Hd as (k & Hk & Hkk). apply Exists_exists.
    exists k. split; [assumption|]. split; [|exact Hkk].
    eapply children_not_root; eassumption.
Qed.

(** [remove(i)] does not return when a child of [i] has a child of its
    own: the descendant collection it starts with never finishes. *)
Theorem remove_deep_never_returns t (i : nat) :
  valid t → i ≠ 0 → i < size t →
  Exists (λ k, children t k ≠ []) (children t i) →
  ∀ fuel, remove fuel i t = Timeout.
Proof.
  intros Hv Hi Hlt Hdeep fuel. pose proof Hv as [E _]. unfold size in Hlt.
  unfold remove.
  destruct (Nat.leb_spec (length (m_parent_index t)) i); [lia|].
  rewrite (valid_isValid _ Hv), bind_Done. cbn [negb].
  rewrite getAllDescendants_deep_Timeout; [reflexivity|assumption..| |].
  - intros E'. rewrite E' in Hdeep. inversion Hdeep.
  - cbn [app]. apply Exists_exists in Hdeep as (k & Hk & Hkk).
    apply Exists_exists. exists k. split; [assumption|]. split; [|assumption].
    eapply children_not_root; eassumption.
Qed.

(** [tree >> i] stops on its assertion whenever [remove(i)] reports
    failure: for an index at or beyond the end, for a leaf other than the
    root, and for the root of a tree that holds nothing else.  The form
    that takes a list of indices does the same for a list of one. *)
Theorem operator_shr_fails t (i fuel : nat) :
  valid t →
  size t ≤ i ∨ (i ≠ 0 ∧ children t i = []) ∨ (i = 0 ∧ size t = 1) →
  operator_shr (S fuel) i t = Abort msg_remove ∧
  operator_shr_many (S fuel) [i] t = Abort msg_remove_many.
Proof.
  intros Hv Hcase. pose proof Hv as [E _].
  assert (Hr : remove (S fuel) i t = Done (false, t)).
  { unfold remove, size in *.
    destruct (Nat.leb_spec (length (m_parent_index t)) i) as [|Hlt]; [reflexivity|].
    rewrite (valid_isValid _ Hv), bind_Done. cbn [negb].
    destruct Hcase as [?|[[Hi Hkids]|[-> Hs]]]; [lia| |].
    - rewrite (getAllDescendants_nonroot_step _ _ _ _ Hv Hi), Hkids. reflexivity.
    - rewrite getAllDescendants_root. unfold size. rewrite Hs. reflexivity. }
  unfold operator_shr, operator_shr_many. cbn [for_each fst snd].
  rewrite !Hr. split; reflexivity.
Qed.

(** [Traverse] from the root, on any tree: the visitor is applied once to
    the value of every node but the root, whose value, like every parent
    entry, is left as it was. *)
Theorem Traverse_root t (f : T → T) (fuel : nat) :
  ∃ t', Traverse (S fuel) 0 f t = Done t' ∧
    m_parent_index t' = m_parent_index t ∧
    m_data t' !! 0 = m_data t !! 0 ∧
    (∀ j, j ≠ 0 → m_data t' !! j = f <$> m_data t !! j).
Proof.
  unfold Traverse. rewrite getAllDescendants_root, bind_Done. cbn [app].
  destruct (decide (1 < size t)) as [Hs|Hs].
  - rewrite bool_decide_eq_true_2 by assumption. cbn [negb].
    rewrite visit_loop.
    2:{ apply Forall_forall. intros k Hk. apply elem_of_seq in Hk.
        unfold size in *. lia. }
    eexists. split; [reflexivity|]. cbn [m_data m_parent_index].
    split; [reflexivity|]. split.
    + rewrite visited_lookup by apply NoDup_seq.
      rewrite decide_False; [reflexivity|]. rewrite elem_of_seq. lia.
    + intros j Hj. rewrite visited_lookup by apply NoDup_seq.
      destruct (decide (j ∈ seq 1 (size t - 1))) as [|Hout]; [reflexivity|].
      rewrite elem_of_seq in Hout. unfold size in *.
      rewrite (lookup_ge_None_2 (m_data t) j) by lia. reflexivity.
  - rewrite bool_decide_eq_false_2 by assumption. cbn [negb].
    eexists. split; [reflexivity|]. split; [reflexivity|]. split; [reflexivity|].
    intros j Hj. unfold size in *.
    rewrite (lookup_ge_None_2 (m_data t) j) by lia. reflexivity.
Qed.

(** [Traverse] from a node other than the root of a valid tree: nothing
    happens when the node is a leaf; when its children are all leaves the
    visitor is applied once to the value of each child and to nothing
    else, the node itself included; when a child has a child the call
    does not return. *)
Theorem Traverse_nonroot t (p : nat) (f : T → T) :
  valid t → p ≠ 0 →
  (children t p = [] → ∀ fuel, Traverse (S fuel) p f t = Done t) ∧
  (children t p ≠ [] → Forall (λ k, children t k = []) (children t p) →
     ∀ fuel, ∃ t', Traverse (S (S fuel)) p f t = Done t' ∧
       m_parent_index t' = m_parent_index t ∧
       ∀ j, m_data t' !! j =
              if decide (j ∈ children t p) then f <$> m_data t !! j
              else m_data t !! j) ∧
  (Exists (λ k, children t k ≠ []) (children t p) →
     ∀ fuel, Traverse fuel p f t = Timeout).
Proof.
  intros Hv Hp. pose proof Hv as [E _]. split; [|split].
  - intros Hkids fuel. unfold Traverse.
    rewrite (getAllDescendants_nonroot_step _ _ _ _ Hv Hp), Hkids. reflexivity.
  - intros Hkids Hl fuel. unfold Traverse.
    rewrite getAllDescendants_shallow_Done by (try assumption; constructor).
    rewrite bind_Done. cbn [negb app]. rewrite visit_loop.
    2:{ apply Forall_forall. intros k Hk. apply elem_of_children in Hk.
        apply lookup_lt_Some in Hk. lia. }
    eexists. split; [reflexivity|]. split; [reflexivity|].
    intros j. cbn [m_data]. apply visited_lookup.
    unfold children. apply NoDup_filter, NoDup_seq.
  - intros Hdeep fuel. unfold Traverse.
    rewrite getAllDescendants_deep_Timeout; [reflexivity|assumption..| |].
    + intros E'. rewrite E' in Hdeep. inversion Hdeep.
    + cbn [app]. apply Exists_exists in Hdeep as (k & Hk & Hkk).
      apply Exists_exists. exists k. split; [assumption|]. split; [|assumption].
      eapply children_not_root; eassumption.
Qed.

End FlatTree_removal.

(** * The tree without a root, and the constructors *)

Section FlatTree_edges.
Context {T : Type}.
Implicit Types (t : FlatTree T) (out : list nat).

(** After [resize(0)] both vectors are empty.  In that state [insert] and
    [remove] return false for every index and the scans find nothing, but
    every call that validates the tree first, and [clear], reads element 0
    of an empty vector. *)
Theorem after_resize_zero `{!Inhabited T} t (i : nat) (x : T) out (fuel : nat) :
  resize 0 t = mkFlatTree [] [] ∧
  insert i x (resize 0 t) = Done (false, resize 0 t) ∧
  remove fuel i (resize 0 t) = Done (false, resize 0 t) ∧
  isLeaf (resize 0 t) i = Abort msg_index ∧
  doesIndexExist (resize 0 t) i = false ∧
  getNumOfDescendants (resize 0 t) i = 0 ∧
  getAllDescendants (S fuel) (resize 0 t) 0 out = Done (false, out) ∧
  clear (resize 0 t) = Undefined ∧
  getDescendants (resize 0 t) i out = Undefined ∧
  getParentIndex (resize 0 t) i = Undefined ∧
  operator_subscript (resize 0 t) i = Undefined ∧
  operator_subscript_assign (resize 0 t) i x = Undefined ∧
  (i ≠ 0 → getAllDescendants (S fuel) (resize 0 t) i out = Undefined).
Proof.
  assert (E : resize 0 t = mkFlatTree [] []) by reflexivity.
  rewrite E. repeat split.
  intros Hi. cbn [getAllDescendants].
  destruct (Nat.eqb_spec i 0); [contradiction|]. reflexivity.
Qed.

(** The two constructor families on their failure paths: both stop on
    the size assertion when the lengths differ; a first parent entry other
    than 0 stops only the overload for general collections; and on two
    empty collections that overload reads element 0 of an empty vector,
    where the vector overload returns a tree without a root. *)
Theorem constructor_failures (xs : list T) (ps : list nat) :
  (length xs ≠ length ps →
     FlatTree_from_collections xs ps = Abort msg_sizes ∧
     FlatTree_from_vectors xs ps = Abort msg_sizes) ∧
  (length xs = length ps → ∀ r, ps !! 0 = Some r → r ≠ 0 →
     FlatTree_from_collections xs ps = Abort msg_root ∧
     FlatTree_from_vectors xs ps = Done (mkFlatTree xs ps) ∧
     ¬ valid (mkFlatTree xs ps)) ∧
  (FlatTree_from_collections (@nil T) [] = Undefined ∧
   FlatTree_from_vectors (@nil T) [] = Done (mkFlatTree [] [])).
Proof.
  split; [|split].
  - intros Hne. split.
    + now apply FlatTree_from_collections_errors.
    + unfold FlatTree_from_vectors. cbn [m_data m_parent_index].
      now destruct (Nat.eqb_spec (length xs) (length ps)).
  - intros E r Hr Hnz. split; [|split].
    + now apply (proj2 (FlatTree_from_collections_errors xs ps) r).
    + now apply FlatTree_from_vectors_Done.
    + intros [_ H0]. cbn [m_parent_index] in H0. congruence.
  - split; reflexivity.
Qed.

End FlatTree_edges.

(** * The grouped dump *)

Lemma string_app_assoc (s1 s2 s3 : string) : (s1 +:+ s2) +:+ s3 = s1 +:+ (s2 +:+ s3).
Proof.
  induction s1 as [|a s1 IH]; [reflexivity|].
  change (String a ((s1 +:+ s2) +:+ s3) = String a (s1 +:+ (s2 +:+ s3))).
  now rewrite IH.
Qed.

Lemma std_unique_elem (v : list nat) (x : nat) : x ∈ std_unique v ↔ x ∈ v.
Proof.
  induction v as [|a v IH]; [reflexivity|].
  destruct v as [|b v]; [reflexivity|]. cbn [std_unique] in *.
  destruct (Nat.eqb_spec a b) as [->|Hne].
  - rewrite IH, !elem_of_cons. tauto.
  - rewrite (elem_of_cons (std_unique (b :: v))), IH, !elem_of_cons. tauto.
Qed.

Lemma std_unique_head (v : list nat) : head (std_unique v) = head v.
Proof.
  induction v as [|a v IH]; [reflexivity|].
  destruct v as [|b v]; [reflexivity|]. cbn [std_unique] in *.
  destruct (Nat.eqb_spec a b) as [->|Hne]; [exact IH|reflexivity].
Qed.

Lemma std_sort_elem (v : list nat) (x : nat) : x ∈ std_sort v ↔ x ∈ v.
Proof. unfold std_sort. now rewrite merge_sort_Permutation. Qed.

Lemma std_sort_head_zero (v : list nat) : 0 ∈ v → head (std_sort v) = Some 0.
Proof.
  intros Hz. apply std_sort_elem in Hz.
  pose proof (StronglySorted_merge_sort (≤) v) as Hs. unfold std_sort in *.
  destruct (merge_sort (≤) v) as [|h s]; [inversion Hz|].
  apply StronglySorted_inv in Hs as [_ Hall]. cbn [head]. f_equal.
  apply elem_of_cons in Hz as [->|Hz]; [reflexivity|].
  rewrite Forall_forall in Hall. specialize (Hall _ Hz). lia.
Qed.

Section FlatTree_output.
Context {T : Type} (show : T → string).
Implicit Types (t : FlatTree T) (out : list nat).

Lemma dump_kids_loop t (ks : list nat) : ∀ o,
  Forall (λ k, k < length (m_data t)) ks →
  ∃ s, for_each (λ k o, vk ← vec_at (m_data t) k; Done (o +:+ "," +:+ show vk))
         ks o = Done s.
Proof.
  induction ks as [|k ks IH]; intros o Hks; cbn [for_each]; [eauto|].
  apply Forall_cons in Hks as [Hk Hks].
  destruct (lookup_lt_is_Some_2 _ _ Hk) as [x Hx].
  rewrite (vec_at_Done _ _ _ Hx), !bind_Done. now apply IH.
Qed.

Lemma dump_line_root t (root : T) :
  valid t → m_data t !! 0 = Some root →
  dumpToConsoleMultiMap_line show t 0 = Done (show root +:+ ": " +:+ newline).
Proof.
  intros Hv Hr. unfold dumpToConsoleMultiMap_line.
  rewrite (vec_at_Done _ _ _ Hr), bind_Done. unfold getDescendants.
  now rewrite (valid_isValid _ Hv).
Qed.

Lemma dump_line_Done t (it : nat) :
  valid t → it < size t → ∃ l, dumpToConsoleMultiMap_line show t it = Done l.
Proof.
  intros Hv Hit. pose proof Hv as [E _]. unfold size in Hit.
  destruct (lookup_lt_is_Some_2 _ _ Hit) as [x Hx].
  destruct (decide (it = 0)) as [->|Hne].
  { rewrite (dump_line_root _ _ Hv Hx). eauto. }
  unfold dumpToConsoleMultiMap_line.
  rewrite (vec_at_Done _ _ _ Hx), bind_Done.
  rewrite (getDescendants_nonroot _ _ _ Hv Hne), bind_Done. cbn [fst snd app].
  assert (Hin : Forall (λ k, k < length (m_data t)) (children t it)).
  { apply Forall_forall. intros k Hk. apply elem_of_children in Hk.
    apply lookup_lt_Some in Hk. lia. }
  destruct (children t it) as [|k0 ks]; [cbn; eauto|].
  rewrite bool_decide_eq_true_2 by discriminate. cbn [negb].
  apply Forall_cons in Hin as [Hk0 Hks].
  destruct (lookup_lt_is_Some_2 _ _ Hk0) as [x0 Hx0].
  change (vec_at (k0 :: ks) 0) with (Done (A := nat) k0).
  rewrite bind_Done, (vec_at_Done _ _ _ Hx0), bind_Done. cbn [drop].
  rewrite drop_0.
  destruct (dump_kids_loop t ks (show x +:+ ": " +:+ show x0) Hks) as [s ->].
  rewrite bind_Done. eauto.
Qed.

Lemma dump_line_Undefined t (it : nat) :
  size t ≤ it → dumpToConsoleMultiMap_line show t it = Undefined.
Proof.
  intros Hit. unfold dumpToConsoleMultiMap_line, vec_at, size in *.
  now rewrite (lookup_ge_None_2 (m_data t) it) by lia.
Qed.

Lemma dump_loop_Done t (its : list nat) : ∀ o,
  valid t → Forall (λ it, it < size t) its →
  ∃ rest, for_each (λ it o, l ← dumpToConsoleMultiMap_line show t it; Done (o +:+ l))
            its o = Done (o +:+ rest).
Proof.
  induction its as [|it its IH]; intros o Hv Hits; cbn [for_each].
  - exists EmptyString. f_equal. induction o as [|a o IHo]; [reflexivity|].
    change (String a o = String a (o +:+ EmptyString)). now rewrite <- IHo.
  - apply Forall_cons in Hits as [Hit Hits].
    destruct (dump_line_Done t it Hv Hit) as [l ->]. rewrite !bind_Done.
    destruct (IH (o +:+ l) Hv Hits) as [rest ->].
    exists (l +:+ rest). now rewrite string_app_assoc.
Qed.

Lemma dump_loop_Undefined t (its : list nat) : ∀ o,
  valid t → Exists (λ it, size t ≤ it) its →
  for_each (λ it o, l ← dumpToConsoleMultiMap_line show t it; Done (o +:+ l))
    its o = Undefined.
Proof.
  induction its as [|it its IH]; intros o Hv Hex; [inversion Hex|]. cbn [for_each].
  destruct (decide (it < size t)) as [Hit|Hit].
  - destruct (dump_line_Done t it Hv Hit) as [l ->]. rewrite !bind_Done.
    apply IH; [assumption|]. apply Exists_cons in Hex as [?|?]; [lia|assumption].
  - now rewrite dump_line_Undefined by lia.
Qed.

(** [dumpToConsoleMultiMap] on a valid tree.  When every parent entry is
    the index of a node, the dump is written out in full and begins with
    the root's line, which never lists a child, because [getDescendants]
    refuses the root.  When some parent entry points past the end of the
    tree, the dump reads outside the vector of values. *)
Theorem dumpToConsoleMultiMap_spec t :
  valid t →
  (parents_in_range t → ∀ root, m_data t !! 0 = Some root →
     ∃ rest, dumpToConsoleMultiMap show t =
               Done (show root +:+ ": " +:+ newline +:+ rest)) ∧
  (¬ parents_in_range t → dumpToConsoleMultiMap show t = Undefined).
Proof.
  intros Hv. pose proof (valid_size_pos _ Hv) as Hpos. pose proof Hv as [E H0].
  unfold dumpToConsoleMultiMap.
  destruct (Nat.eqb_spec (size t) 0) as [?|_]; [lia|]. cbv zeta. split.
  - intros Hin root Hr.
    assert (Hhead : head (std_unique (std_sort (m_parent_index t))) = Some 0).
    { rewrite std_unique_head. apply std_sort_head_zero.
      eapply list_elem_of_lookup_2, H0. }
    assert (Hall : Forall (λ it, it < size t)
                     (std_unique (std_sort (m_parent_index t)))).
    { apply Forall_forall. intros it Hit.
      rewrite std_unique_elem, std_sort_elem in Hit.
      unfold parents_in_range in Hin. rewrite Forall_forall in Hin. now apply Hin. }
    destruct (std_unique (std_sort (m_parent_index t))) as [|it its];
      [discriminate|].
    injection Hhead as ->. apply Forall_cons in Hall as [_ Hall].
    cbn [for_each]. rewrite (dump_line_root _ _ Hv Hr), !bind_Done.
    destruct (dump_loop_Done t its
                (EmptyString +:+ show root +:+ ": " +:+ newline) Hv Hall)
      as [rest ->].
    exists rest. f_equal.
    change (EmptyString +:+ show root +:+ ": " +:+ newline)
      with (show root +:+ ": " +:+ newline).
    now rewrite !string_app_assoc.
  - intros Hout. apply dump_loop_Undefined; [assumption|].
    apply not_Forall_Exists in Hout; [|apply _].
    apply Exists_exists in Hout as (p & Hp & Hge). apply Exists_exists.
    exists p. split; [now rewrite std_unique_elem, std_sort_elem|].
    cbn in Hge. lia.
Qed.

End FlatTree_output.

(** * Instances of the further properties *)

Lemma queries_agree_off_root_witness :
  ∃ (b : bool) (ks : list nat),
    getDescendants family 1 [] = Done (b, [] ++ ks) ∧
    length ks = getNumOfDescendants family 1 ∧
    isLeaf family 1 = Done (negb b) ∧
    doesIndexExist family 1 = b.
Proof.
  apply (queries_agree_off_root family 1 []);
    [split; reflexivity|discriminate|vm_compute; lia].
Defined.

Lemma isLeaf_spec_witness :
  isLeaf family 8 = Abort msg_index ∧ isLeaf family 7 = Done true.
Proof.
  split.
  - apply (proj1 (isLeaf_spec family 8)). vm_compute. lia.
  - apply (proj2 (isLeaf_spec family 7)). vm_compute. lia.
Defined.

Lemma getParentIndex_spec_witness :
  getParentIndex family 6 = Done 2 ∧ getParentIndex family 8 = Abort msg_index.
Proof.
  destruct (getParentIndex_spec family 6) as (Hin & _).
  destruct (getParentIndex_spec family 8) as (_ & Hout & _).
  split.
  - apply Hin; [split; reflexivity|reflexivity].
  - apply Hout; [split; reflexivity|vm_compute; lia].
Defined.

Lemma insert_many_spec_witness :
  insert_many 1 ["a"; "b"] root_and_child =
    Done (true, mkFlatTree ["root"; "child"; "a"; "b"] [0; 0; 1; 1]) ∧
  insert_many 2 ["a"; "b"] root_and_child = Done (false, root_and_child).
Proof.
  split.
  - apply (proj2 (insert_many_spec root_and_child 1 ["a"; "b"]));
      [split; reflexivity|vm_compute; lia].
  - apply (proj1 (insert_many_spec root_and_child 2 ["a"; "b"])).
    left. vm_compute. lia.
Defined.

Lemma insert_updates_queries_witness :
  ∃ t', insert 1 "x" root_and_child = Done (true, t') ∧
    (∀ q, getNumOfDescendants t' q =
            getNumOfDescendants root_and_child q + (if decide (q = 1) then 1 else 0)) ∧
    children t' 1 = children root_and_child 1 ++ [size root_and_child] ∧
    isLeaf t' 1 = Done false ∧
    (parents_in_range root_and_child → isLeaf t' (size root_and_child) = Done true).
Proof.
  apply (insert_updates_queries root_and_child 1 "x");
    [split; reflexivity|vm_compute; lia].
Defined.

Lemma insert_preserves_forest_witness :
  ∃ t', insert 7 "great" family = Done (true, t') ∧ valid t' ∧ forest t' = true.
Proof.
  apply (insert_preserves_forest family 7 "great");
    [split; reflexivity|reflexivity|vm_compute; lia].
Defined.

Lemma operator_shl_spec_witness :
  operator_shl (0, "child1") lone_root =
    Done (mkFlatTree ["root"; "child1"] [0; 0]) ∧
  operator_shl (1, "child1") lone_root = Abort msg_insert.
Proof.
  split.
  - apply (proj1 (operator_shl_spec lone_root 0 "child1" []));
      [split; reflexivity|vm_compute; lia].
  - apply (proj2 (operator_shl_spec lone_root 1 "child1" [])).
    left. vm_compute. lia.
Defined.

Lemma clear_spec_witness :
  clear family = Done lone_root ∧ valid lone_root ∧ forest lone_root = true ∧
  size lone_root = 1 ∧ empty lone_root = true ∧ clear lone_root = Done lone_root.
Proof. apply (proj2 (clear_spec family) "root"). reflexivity. Defined.

Lemma resize_spec_witness :
  valid (resize 3 root_and_child) ∧ forest (resize 3 root_and_child) = true.
Proof.
  destruct (resize_spec root_and_child 3) as (_ & _ & _ & Hv & Hf). split.
  - apply Hv; [split; reflexivity|lia].
  - apply Hf; [split; reflexivity|vm_compute; lia|reflexivity].
Defined.

Lemma remove_node_spec_witness :
  ∃ t', remove_node 3 family = Done t' ∧ valid t' ∧ size t' = size family - 1 ∧
    (∀ j, j < size family - 1 → j ≠ 3 →
       m_data t' !! j = m_data family !! j ∧
       m_parent_index t' !! j = m_parent_index family !! j) ∧
    (3 < size family - 1 →
       m_data t' !! 3 = m_data family !! (size family - 1) ∧
       m_parent_index t' !! 3 = m_parent_index family !! (size family - 1)).
Proof.
  apply (proj2 (proj2 (remove_node_spec family 3)));
    [split; reflexivity|vm_compute; lia].
Defined.

Lemma remove_node_values_witness :
  ∃ t', remove_node 3 family = Done t' ∧ m_data family ≡ₚ "grand0" :: m_data t'.
Proof.
  apply (remove_node_values family 3 "grand0");
    [split; reflexivity|vm_compute; lia|reflexivity].
Defined.

Lemma operator_subscript_round_trip_witness :
  ∃ t', operator_subscript_assign family 1 "changed_name" = Done t' ∧
    operator_subscript t' 1 = Done "changed_name" ∧
    (∀ j, j ≠ 1 → operator_subscript t' j = operator_subscript family j) ∧
    m_parent_index t' = m_parent_index family ∧ size t' = size family.
Proof.
  apply (proj1 (operator_subscript_round_trip family 1 "changed_name"
                  (conj eq_refl eq_refl))).
  vm_compute. lia.
Defined.

Lemma getAllDescendants_shallow_witness :
  getAllDescendants 2 family 1 [] = Done (true, [3; 4; 5]).
Proof.
  apply (getAllDescendants_shallow family 0 1 []).
  - split; reflexivity.
  - discriminate.
  - discriminate.
  - repeat constructor.
  - constructor.
Defined.

Lemma getAllDescendants_deep_witness :
  getAllDescendants 9 chain 1 [] = Timeout.
Proof.
  apply (getAllDescendants_deep chain 1).
  - split; reflexivity.
  - discriminate.
  - apply Exists_cons_hd. discriminate.
Defined.

Lemma remove_true_shape_witness :
  children family 1 ≠ [] ∧
  Forall (λ k, children family k = []) (children family 1) ∧
  valid (mkFlatTree ["root"; "child1"; "child2"; "grand4"; "grand3"] [0; 0; 0; 2; 2]) ∧
  size (mkFlatTree ["root"; "child1"; "child2"; "grand4"; "grand3"] [0; 0; 0; 2; 2])
    + length (children family 1) = size family.
Proof.
  apply (remove_true_shape family 1 2);
    [split; reflexivity|discriminate|reflexivity].
Defined.

Lemma remove_deep_never_returns_witness : remove 9 1 chain = Timeout.
Proof.
  apply (remove_deep_never_returns chain 1).
  - split; reflexivity.
  - discriminate.
  - vm_compute. lia.
  - apply Exists_cons_hd. discriminate.
Defined.

Lemma operator_shr_fails_witness :
  operator_shr 1 3 family = Abort msg_remove ∧
  operator_shr_many 1 [3] family = Abort msg_remove_many.
Proof.
  apply (operator_shr_fails family 3 0); [split; reflexivity|].
  right. left. split; [discriminate|reflexivity].
Defined.

Lemma Traverse_root_witness :
  ∃ t', Traverse 1 0 (λ s, s +:+ "_") root_and_child = Done t' ∧
    m_parent_index t' = m_parent_index root_and_child ∧
    m_data t' !! 0 = m_data root_and_child !! 0 ∧
    (∀ j, j ≠ 0 → m_data t' !! j = (λ s, s +:+ "_") <$> m_data root_and_child !! j).
Proof. apply (Traverse_root root_and_child (λ s, s +:+ "_") 0). Defined.

Lemma Traverse_nonroot_witness :
  Traverse 1 3 (λ s, s +:+ "_") family = Done family ∧
  ∃ t', Traverse 2 1 (λ s, s +:+ "_") family = Done t' ∧
    m_parent_index t' = m_parent_index family ∧
    ∀ j, m_data t' !! j =
           if decide (j ∈ children family 1)
           then (λ s, s +:+ "_") <$> m_data family !! j
           else m_data family !! j.
Proof.
  destruct (Traverse_nonroot family 3 (λ s, s +:+ "_")) as (Hleaf & _);
    [split; reflexivity|discriminate|].
  destruct (Traverse_nonroot family 1 (λ s, s +:+ "_")) as (_ & Hkids & _);
    [split; reflexivity|discriminate|].
  split.
  - apply Hleaf. reflexivity.
  - apply Hkids; [discriminate|repeat constructor].
Defined.

Lemma after_resize_zero_witness :
  getAllDescendants 1 (resize 0 family) 2 [] = Undefined.
Proof.
  destruct (after_resize_zero family 2 "x" [] 0) as (_ & _ & _ & _ & _ & _ & _ & _ & _ & _ & _ & _ & H).
  apply H. discriminate.
Defined.

Lemma constructor_failures_witness :
  FlatTree_from_collections ["a"; "b"] [0] = Abort msg_sizes ∧
  FlatTree_from_vectors ["a"; "b"] [0] = Abort msg_sizes.
Proof.
  apply (proj1 (constructor_failures ["a"; "b"] [0])). vm_compute. lia.
Defined.

Lemma dumpToConsoleMultiMap_spec_witness :
  (∃ rest, dumpToConsoleMultiMap id family = Done ("root" +:+ ": " +:+ newline +:+ rest)) ∧
  dumpToConsoleMultiMap id (mkFlatTree ["n0"; "n1"; "n4"; "n3"] [0; 0; 0; 4]) = Undefined.
Proof.
  destruct (dumpToConsoleMultiMap_spec id family) as [Hgood _];
    [split; reflexivity|].
  destruct (dumpToConsoleMultiMap_spec id
              (mkFlatTree ["n0"; "n1"; "n4"; "n3"] [0; 0; 0; 4])) as [_ Hbad];
    [split; reflexivity|].
  split.
  - apply Hgood; [|reflexivity].
    unfold parents_in_range. repeat (apply Forall_cons_2; [vm_compute; lia|]).
    apply Forall_nil_2.
  - apply Hbad. unfold parents_in_range. intros H.
    rewrite Forall_forall in H. specialize (H 4). vm_compute in H.
    assert (Hin : 4 ∈ [0; 0; 0; 4]) by (repeat constructor). specialize (H Hin). lia.
Defined.

(** * Removal with stale indices *)

Section FlatTree_stale_indices.
Context {T : Type}.
Implicit Types (t : FlatTree T) (out : list nat).

(* [remove] collects the indices first and removes them one by one, each
   removal shortening the tree: the [j]-th index collected meets a tree
   that has lost [j] nodes *)
Lemma remove_nodes_outcome (ks : list nat) : ∀ t,
  valid t → Forall (λ k, k ≠ 0) ks →
  ((∀ j k, ks !! j = Some k → k + j < size t) →
     ∃ t', for_each remove_node ks t = Done t') ∧
  ((∃ j k, ks !! j = Some k ∧ size t ≤ k + j) →
     for_each remove_node ks t = Undefined).
Proof.
  induction ks as [|k ks IH]; intros t Hv Hks.
  { split; [cbn; eauto|]. intros (j & k & Hk & _). discriminate Hk. }
  apply Forall_cons in Hks as [Hk Hks]. cbn [for_each].
  destruct (decide (k < size t)) as [Hlt|Hge].
  - destruct (remove_node_Done t k Hv) as (x & p & _ & _ & Hrun); [lia|].
    pose proof (remove_node_valid _ _ _ Hrun Hv) as Hv1.
    pose proof (remove_node_size _ _ _ Hk Hrun) as Hs1.
    rewrite Hrun, bind_Done. destruct (IH _ Hv1 Hks) as [IHok IHbad]. split.
    + intros Hfit. apply IHok. intros j k' Hk'.
      specialize (Hfit (S j) k' Hk'). lia.
    + intros (j & k' & Hk' & Hbig). apply IHbad.
      destruct j as [|j]; [injection Hk' as ->; lia|].
      exists j, k'. split; [exact Hk'|lia].
  - split.
    + intros Hfit. specialize (Hfit 0 k eq_refl). lia.
    + intros _. rewrite remove_node_out_of_range; [reflexivity|apply Hv|assumption|lia].
Qed.

(** [remove(i)] for a node other than the root whose children are all
    leaves.  The indices of the children are collected before anything is
    removed, and every removal shortens the tree by one.  The call returns
    true when each collected index is still inside the tree at its turn
    (the [j]-th child, counted from 0, at an index below [size() - j]);
    otherwise it writes outside the vectors. *)
Theorem remove_shallow_outcome t (i fuel : nat) :
  valid t → i ≠ 0 → i < size t → children t i ≠ [] →
  Forall (λ k, children t k = []) (children t i) →
  ((∀ j k, children t i !! j = Some k → k + j < size t) →
     ∃ t', remove (S (S fuel)) i t = Done (true, t')) ∧
  ((∃ j k, children t i !! j = Some k ∧ size t ≤ k + j) →
     remove (S (S fuel)) i t = Undefined).
Proof.
  intros Hv Hi Hlt Hkids Hleaves. pose proof Hv as [E _]. unfold size in Hlt.
  assert (Hrun : remove (S (S fuel)) i t =
            t' ← for_each remove_node (children t i) t; Done (true, t')).
  { unfold remove.
    destruct (Nat.leb_spec (length (m_parent_index t)) i); [lia|].
    rewrite (valid_isValid _ Hv), bind_Done. cbn [negb].
    rewrite getAllDescendants_shallow_Done by (try assumption; constructor).
    reflexivity. }
  rewrite Hrun.
  destruct (remove_nodes_outcome (children t i) t Hv) as [Hok Hbad].
  { apply Forall_forall. intros k Hk. eapply children_not_root; eassumption. }
  split.
  - intros Hfit. destruct (Hok Hfit) as [t' ->]. eauto.
  - intros Hstale. now rewrite (Hbad Hstale).
Qed.

End FlatTree_stale_indices.

Lemma remove_shallow_outcome_witness :
  (∃ t', remove 2 1 family = Done (true, t')) ∧ remove 2 2 family = Undefined.
Proof.
  destruct (remove_shallow_outcome family 1 0) as [Hok _];
    [split; reflexivity|discriminate|vm_compute; lia|discriminate
    |repeat constructor|].
  destruct (remove_shallow_outcome family 2 0) as [_ Hbad];
    [split; reflexivity|discriminate|vm_compute; lia|discriminate
    |repeat constructor|].
  split.
  - apply Hok. intros j k Hk.
    destruct j as [|[|[|j]]]; vm_compute in Hk; try discriminate Hk;
      injection Hk as <-; vm_compute; lia.
  - apply Hbad. exists 1, 7. split; [reflexivity|vm_compute; lia].
Defined.
